(** * Rule 628 scanner (src/app/app.py): shallow embedding and properties

    Python [str] values are modelled as [list ascii]; a character is a code
    point in the range 0..255.  The character tables below ([\s], [\w],
    line boundaries, case mapping) are those of CPython for that range.
    Fallible operations (list indexing, dictionary lookup) live in the
    error monad [res]. *)

From Stdlib Require Import Strings.String Strings.Ascii.
From Stdlib Require Import Lists.List Arith.Arith Arith.PeanoNat Bool.Bool.
From Stdlib Require Import ZArith.ZArith Lia Sorting.Sorted FunInd.
Import ListNotations.

Set Implicit Arguments.

(* ------------------------------------------------------------------ *)
(** ** Characters and strings *)

Definition str := list ascii.

(** A string literal of the source, for code points below 128. *)
Definition lit (s : string) : str := list_ascii_of_string s.

Definition LF : ascii := "010"%char.
Definition CR : ascii := "013"%char.
Definition SPACE : ascii := " "%char.
Definition QUOTE : ascii := "'"%char.
Definition DQUOTE : ascii := "034"%char.
Definition STAR : ascii := "*"%char.
Definition BACKSLASH : ascii := "\"%char.

Definition ord (c : ascii) : nat := nat_of_ascii c.

Definition in_range (lo hi n : nat) : bool := (lo <=? n) && (n <=? hi).

(** Line boundaries of [str.splitlines] below 256:
    \n \v \f \r \x1c \x1d \x1e \x85. *)
Definition is_linebreak (c : ascii) : bool :=
  let n := ord c in in_range 10 13 n || in_range 28 30 n || (n =? 133).

(** [\s] of the [re] module on [str] patterns, i.e. [str.isspace]. *)
Definition is_space (c : ascii) : bool :=
  let n := ord c in
  in_range 9 13 n || in_range 28 32 n || (n =? 133) || (n =? 160).

(** [str.isalnum] on one character. *)
Definition is_alnum (c : ascii) : bool :=
  let n := ord c in
  in_range 48 57 n || in_range 65 90 n || in_range 97 122 n
  || (n =? 170) || (n =? 178) || (n =? 179) || (n =? 181)
  || (n =? 185) || (n =? 186) || in_range 188 190 n
  || in_range 192 214 n || in_range 216 246 n || in_range 248 255 n.

(** [\w] of the [re] module: alphanumeric or underscore. *)
Definition is_word (c : ascii) : bool := is_alnum c || (ord c =? 95).

(** Simple lower-case mapping of one character. *)
Definition lower_char (c : ascii) : ascii :=
  let n := ord c in
  if in_range 65 90 n || (in_range 192 222 n && negb (n =? 215))
  then ascii_of_nat (n + 32) else c.

(** Upper-case mapping, used by the source only on elements of
    [TARGET_TABLES]; it is exact on code points below 128. *)
Definition upper_char (c : ascii) : ascii :=
  let n := ord c in
  if in_range 97 122 n then ascii_of_nat (n - 32) else c.

Definition lower (s : str) : str := map lower_char s.
Definition upper (s : str) : str := map upper_char s.

Fixpoint str_eqb (a b : str) : bool :=
  match a, b with
  | [], [] => true
  | x :: a', y :: b' => Ascii.eqb x y && str_eqb a' b'
  | _, _ => false
  end.

(** [s.startswith(p)] *)
Fixpoint startswith (s p : str) {struct p} : bool :=
  match p, s with
  | [], _ => true
  | c :: p', x :: s' => Ascii.eqb x c && startswith s' p'
  | _ :: _, [] => false
  end.

(** [s[a:b]] for [0 <= a], [0 <= b]. *)
Definition slice (s : str) (a b : nat) : str := firstn (b - a) (skipn a s).

(** [s.splitlines(keepends=True)]: [cur] holds the characters of the line
    being read, most recent first. *)
Function splitlines_from (cur : str) (s : str) {struct s} : list str :=
  match s with
  | [] => match cur with [] => [] | _ :: _ => [rev cur] end
  | c :: s' =>
      if Ascii.eqb c CR then
        match s' with
        | d :: s'' =>
            if Ascii.eqb d LF then rev (d :: c :: cur) :: splitlines_from [] s''
            else rev (c :: cur) :: splitlines_from [] s'
        | [] => rev (c :: cur) :: splitlines_from [] s'
        end
      else if is_linebreak c then rev (c :: cur) :: splitlines_from [] s'
      else splitlines_from (c :: cur) s'
  end.

Definition splitlines (s : str) : list str := splitlines_from [] s.

(** [text.count("\n", 0, off)] for [0 <= off]. *)
Definition count_newlines (text : str) (off : nat) : nat :=
  count_occ ascii_dec (firstn off text) LF.

(** [text.replace("\n", "\\n")] *)
Definition escape_newlines (text : str) : str :=
  flat_map (fun c => if Ascii.eqb c LF then [BACKSLASH; "n"%char] else [c]) text.

(* ------------------------------------------------------------------ *)
(** ** Exceptions *)

Inductive exn : Type :=
| IndexError
| KeyError
| Exhausted.   (* a loop of the model ran out of fuel; never raised, see
                  [while_loop_closed] *)

Inductive res (A : Type) : Type :=
| Ok (a : A)
| Raise (e : exn).

Arguments Ok {A} a.
Arguments Raise {A} e.

Definition bind {A B : Type} (m : res A) (k : A -> res B) : res B :=
  match m with
  | Ok a => k a
  | Raise e => Raise e
  end.

Notation "x <- m ;; k" := (bind m (fun x => k))
  (at level 61, m at next level, right associativity).

(** [for x in xs: s = body(x, s)] *)
Fixpoint for_ {A S : Type} (xs : list A) (s : S) (body : A -> S -> res S)
  : res S :=
  match xs with
  | [] => Ok s
  | x :: xs' => s' <- body x s ;; for_ xs' s' body
  end.

(** [buf[i]] *)
Definition getitem (buf : list ascii) (i : nat) : res ascii :=
  match nth_error buf i with
  | Some c => Ok c
  | None => Raise IndexError
  end.

(** [buf[i] = v] *)
Fixpoint setitem (buf : list ascii) (i : nat) (v : ascii) : res (list ascii) :=
  match buf, i with
  | [], _ => Raise IndexError
  | _ :: tl, 0 => Ok (v :: tl)
  | c :: tl, S i' => tl' <- setitem tl i' v ;; Ok (c :: tl')
  end.

(* ------------------------------------------------------------------ *)
(** ** Helpers of the source *)

Definition TARGET_TABLES : list str := [lit "t881"; lit "t881t"; lit "t882g"].

Definition METHOD_MAP_items : list (str * str) :=
  [ (lit "t881",  lit "cl_fins_acdoc_util=>get_t881_emu");
    (lit "t881t", lit "cl_fins_acdoc_util=>get_t881t_emu");
    (lit "t882g", lit "cl_fins_acdoc_util=>get_t882g_emu") ].

Fixpoint dict_get (d : list (str * str)) (k : str) : res str :=
  match d with
  | [] => Raise KeyError
  | (k', v) :: d' => if str_eqb k k' then Ok v else dict_get d' k
  end.

(** [METHOD_MAP[table]] *)
Definition METHOD_MAP (table : str) : res str := dict_get METHOD_MAP_items table.

Definition line_of_offset (text : str) (off : nat) : nat :=
  count_newlines text off + 1.

Definition snippet_at (text : str) (start end_ : nat) : str :=
  let s := start - 140 in                 (* max(0, start - 140) *)
  let e := Nat.min (length text) (end_ + 140) in
  escape_newlines (slice text s e).

Definition canon (s : option str) : option str :=
  match s with
  | Some (c :: t) => Some (lower (c :: t))
  | Some [] => None
  | None => None
  end.

(** The [while i < len(buf)] loop of [rm_strings_and_comments], with the
    loop state [(buf, in_str, i)] passed explicitly. *)
Fixpoint while_loop (fuel : nat) (buf : list ascii) (in_str : bool) (i : nat)
  : res (list ascii) :=
  match fuel with
  | 0 => Raise Exhausted
  | S fuel' =>
      if i <? length buf then
        ch <- getitem buf i ;;
        if Ascii.eqb ch QUOTE then
          if in_str then
            doubled <- (if i + 1 <? length buf
                        then nx <- getitem buf (i + 1) ;; Ok (Ascii.eqb nx QUOTE)
                        else Ok false) ;;
            if doubled then while_loop fuel' buf in_str (i + 2)
            else while_loop fuel' buf false (i + 1)
          else while_loop fuel' buf true (i + 1)
        else if Ascii.eqb ch DQUOTE && negb in_str then
          for_ (seq i (length buf - i)) buf (fun j b => setitem b j SPACE)
        else
          buf' <- (if in_str then setitem buf i SPACE else Ok buf) ;;
          while_loop fuel' buf' in_str (i + 1)
      else Ok buf
  end.

(** Body of the [for ln in lines] loop: the text appended to [out]. *)
Definition sanitize_line (ln : str) : res str :=
  if startswith ln [STAR] then Ok (repeat SPACE (length ln))
  else while_loop (S (length ln)) ln false 0.

Definition rm_strings_and_comments (src : str) : res str :=
  let lines := splitlines src in
  out <- for_ lines [] (fun ln out => s <- sanitize_line ln ;; Ok (out ++ [s])) ;;
  Ok (concat out).

(* ------------------------------------------------------------------ *)
(** ** The regular expressions of the source

    A backtracking matcher with the priorities of Python's [re]: the
    alternatives of [|] are tried left to right, [?], [*] and [+] are
    greedy, and the first way to reach the end of the pattern wins.  All
    patterns of the source carry the flags [(?is)], so literals compare
    case-insensitively. *)

Inductive regex : Type :=
| Lit (c : ascii)                   (* a literal character *)
| NotLit (c : ascii)                (* [^c] *)
| Space                             (* \s *)
| Boundary                          (* \b *)
| Seq (r1 r2 : regex)
| Alt (r1 r2 : regex)               (* r1|r2 *)
| Opt (r : regex)                   (* r? *)
| Star (r : regex)                  (* r* *)
| Plus (r : regex)                  (* r+ *)
| Group (name : string) (r : regex) (* (?P<name>r), or a numbered group *)
| Eps.

(** Position of the matcher in the subject: offset, character before it
    (if any) and characters from it on. *)
Record cursor : Type := mkCursor {
  pos : nat;
  prev : option ascii;
  rest : str
}.

Definition captures := list (string * (nat * nat)).

Definition cont := cursor -> captures -> option (cursor * captures).

Definition advance (cu : cursor) : option (ascii * cursor) :=
  match rest cu with
  | [] => None
  | c :: tl => Some (c, mkCursor (S (pos cu)) (Some c) tl)
  end.

Definition word_before (cu : cursor) : bool :=
  match prev cu with Some c => is_word c | None => false end.

Definition word_after (cu : cursor) : bool :=
  match rest cu with c :: _ => is_word c | [] => false end.

Definition at_boundary (cu : cursor) : bool :=
  xorb (word_before cu) (word_after cu).

(** One character accepted by predicate [p]. *)
Definition one (p : ascii -> bool) (k : cont) : cont :=
  fun cu cs =>
    match advance cu with
    | Some (c, cu') => if p c then k cu' cs else None
    | None => None
    end.

(** Literal comparison under IGNORECASE. *)
Definition ieq (c x : ascii) : bool := Ascii.eqb (lower_char x) (lower_char c).

Definition orelse {A : Type} (a b : option A) : option A :=
  match a with Some _ => a | None => b end.

(** Greedy repetition of [body]: another iteration is tried first and has
    to consume a character; [fuel] bounds the iterations by the length of
    the remaining subject. *)
Fixpoint star_loop (body : cont -> cont) (fuel : nat) (k : cont) : cont :=
  fun cu cs =>
    match fuel with
    | 0 => k cu cs
    | S fuel' =>
        orelse
          (body (fun cu' cs' =>
                   if length (rest cu') <? length (rest cu)
                   then star_loop body fuel' k cu' cs' else None) cu cs)
          (k cu cs)
    end.

Fixpoint exec (r : regex) (k : cont) {struct r} : cont :=
  match r with
  | Lit c => one (ieq c) k
  | NotLit c => one (fun x => negb (ieq c x)) k
  | Space => one is_space k
  | Boundary => fun cu cs => if at_boundary cu then k cu cs else None
  | Seq r1 r2 => exec r1 (exec r2 k)
  | Alt r1 r2 => fun cu cs => orelse (exec r1 k cu cs) (exec r2 k cu cs)
  | Opt r1 => fun cu cs => orelse (exec r1 k cu cs) (k cu cs)
  | Star r1 => fun cu cs => star_loop (exec r1) (length (rest cu)) k cu cs
  | Plus r1 =>
      exec r1 (fun cu cs => star_loop (exec r1) (length (rest cu)) k cu cs)
  | Group name r1 =>
      fun cu cs =>
        exec r1 (fun cu' cs' => k cu' ((name, (pos cu, pos cu')) :: cs')) cu cs
  | Eps => k
  end.

(** A match object: [m.start()], [m.end()] and the spans of its groups. *)
Record rmatch : Type := mkMatch {
  m_start : nat;
  m_end : nat;
  m_groups : captures
}.

(** The continuation at the end of the pattern: the match is found. *)
Definition done : cont := fun cu cs => Some (cu, cs).

(** [pattern.match(text, pos)] at the cursor. *)
Definition match_at (r : regex) (cu : cursor) : option rmatch :=
  match exec r done cu [] with
  | Some (cu', cs) => Some (mkMatch (pos cu) (pos cu') cs)
  | None => None
  end.

(** [pattern.finditer(text)]: matches are searched left to right and do not
    overlap; [skip] counts the characters of the last match still to pass.
    (No pattern of the source matches the empty string, see
    [finditer_consuming], so the rule for empty matches is not needed:
    after one the scan moves on a character.) *)
Fixpoint scan (r : regex) (skip : nat) (p : nat) (pv : option ascii)
  (s : str) {struct s} : list rmatch :=
  match skip with
  | S skip' =>
      match s with
      | [] => []
      | c :: s' => scan r skip' (S p) (Some c) s'
      end
  | 0 =>
      match match_at r (mkCursor p pv s) with
      | Some m =>
          m :: match s with
               | [] => []
               | c :: s' => scan r (m_end m - p - 1) (S p) (Some c) s'
               end
      | None =>
          match s with
          | [] => []
          | c :: s' => scan r 0 (S p) (Some c) s'
          end
      end
  end.

Definition finditer (r : regex) (text : str) : list rmatch :=
  scan r 0 0 None text.

(** [m.group(0)] *)
Definition group0 (text : str) (m : rmatch) : str :=
  slice text (m_start m) (m_end m).

Fixpoint lookup_group (name : string) (cs : captures) : option (nat * nat) :=
  match cs with
  | [] => None
  | (n, sp) :: cs' => if String.eqb n name then Some sp else lookup_group name cs'
  end.

(** [m.group(name)]: [None] when the group took no part in the match. *)
Definition group (text : str) (m : rmatch) (name : string) : option str :=
  match lookup_group name (m_groups m) with
  | Some (a, b) => Some (slice text a b)
  | None => None
  end.

(** Concatenation of the literals of a word. *)
Fixpoint word (s : str) : regex :=
  match s with
  | [] => Eps
  | [c] => Lit c
  | c :: s' => Seq (Lit c) (word s')
  end.

Fixpoint seqs (rs : list regex) : regex :=
  match rs with
  | [] => Eps
  | [r] => r
  | r :: rs' => Seq r (seqs rs')
  end.

Definition DOT : ascii := "."%char.

(** [(?is)\bSELECT\b[^.]*\.] *)
Definition STMT_SELECT_RE : regex :=
  seqs [Boundary; word (lit "SELECT"); Boundary; Star (NotLit DOT); Lit DOT].

(** [(?is)\bOPEN\s+CURSOR\b[^.]*\.] *)
Definition STMT_OPEN_CURSOR_RE : regex :=
  seqs [Boundary; word (lit "OPEN"); Plus Space; word (lit "CURSOR"); Boundary;
        Star (NotLit DOT); Lit DOT].

(** [t881t?|t882g] *)
Definition TABLE_NAME_RE : regex :=
  Alt (Seq (word (lit "t881")) (Opt (Lit "t"))) (word (lit "t882g")).

(** [@?\s*\(?\s*(?P<table>...)\s*\)?] *)
Definition TABLE_TOKEN : regex :=
  seqs [Opt (Lit "@"); Star Space; Opt (Lit "("); Star Space;
        Group "table" TABLE_NAME_RE; Star Space; Opt (Lit ")")].

(** [(?is)\b(?:FROM|JOIN)\s+{TABLE_TOKEN}\b] *)
Definition FROM_OR_JOIN_TARGET_RE : regex :=
  seqs [Boundary; Alt (word (lit "FROM")) (word (lit "JOIN")); Plus Space;
        TABLE_TOKEN; Boundary].

(** [(?: @? \s* \( \s* )?], written with the blanks the verbose flag allows *)
Definition OPEN_PAREN_OPT : regex :=
  Opt (seqs [Opt (Lit "@"); Star Space; Lit "("; Star Space]).

(** [\s* (?: \) \s* )? [^.]* \.] *)
Definition WRITE_TAIL : regex :=
  seqs [Star Space; Opt (Seq (Lit ")") (Star Space)); Star (NotLit DOT); Lit DOT].

(** The verbose pattern [WRITE_STMT_RE]: the INSERT/UPDATE/MODIFY form with
    group [table1], or the DELETE form with group [table2]. *)
Definition WRITE_STMT_RE : regex :=
  Alt
    (seqs [Boundary;
           Group "1" (Alt (word (lit "INSERT"))
                          (Alt (word (lit "UPDATE")) (word (lit "MODIFY"))));
           Plus Space; OPEN_PAREN_OPT; Group "table1" TABLE_NAME_RE; WRITE_TAIL])
    (seqs [Boundary; word (lit "DELETE"); Plus Space;
           Opt (Seq (word (lit "FROM")) (Plus Space));
           OPEN_PAREN_OPT; Group "table2" TABLE_NAME_RE; WRITE_TAIL]).

Definition in_targets (tb : option str) : bool :=
  match tb with
  | Some t => existsb (str_eqb t) TARGET_TABLES
  | None => false
  end.

(** The triples yielded by the generator [find_tables_in_select]. *)
Definition find_tables_in_select (stmt : str) : list (str * nat * nat) :=
  flat_map
    (fun m =>
       let tb := canon (group stmt m "table") in
       match tb with
       | Some t => if in_targets tb then [(t, m_start m, m_end m)] else []
       | None => []
       end)
    (finditer FROM_OR_JOIN_TARGET_RE stmt).

(* ------------------------------------------------------------------ *)
(** ** Models *)

Module Unit.
Record t : Type := mk {
  pgm_name : str;
  inc_name : str;
  type : str;
  name : option str;
  start_line : option Z;
  end_line : option Z;
  code : option str
}.
End Unit.

(** The dictionaries appended to [findings]. *)
Module Finding.
Record t : Type := mk {
  pgm_name : str;
  inc_name : str;
  type : str;
  name : option str;
  start_line : option Z;
  end_line : option Z;
  issue_type : str;
  severity : str;
  line : nat;
  message : str;
  suggestion : str;
  snippet : str
}.
End Finding.

(** The dictionary returned by [scan_unit]: [unit.model_dump()] extended
    with the key [rule628_findings]. *)
Record ScanResult : Type := mkResult {
  dump : Unit.t;
  rule628_findings : list Finding.t
}.

(* ------------------------------------------------------------------ *)
(** ** Suggestions *)

Definition NL : str := [LF].

(** U+2026 of the SELECT message, kept as its three UTF-8 bytes: messages
    are only carried, never inspected. *)
Definition ELLIPSIS : str := [ascii_of_nat 226; ascii_of_nat 128; ascii_of_nat 166].

Definition suggestion_for_read (table : str) : res str :=
  method <- METHOD_MAP table ;;
  if str_eqb table (lit "t881") then
    Ok (lit "Replace direct read of " ++ upper table ++ lit " with " ++ method
        ++ lit "." ++ NL ++ NL
        ++ lit "Example:" ++ NL
        ++ lit "  DATA(ls_t881) = VALUE t881( )." ++ NL
        ++ lit "  cl_fins_acdoc_util=>get_t881_emu(" ++ NL
        ++ lit "    EXPORTING iv_rldnr = lv_rldnr" ++ NL
        ++ lit "    IMPORTING es_t881  = ls_t881" ++ NL
        ++ lit "    EXCEPTIONS not_found = 1 OTHERS = 2 )." ++ NL)
  else if str_eqb table (lit "t881t") then
    Ok (lit "Replace direct read of " ++ upper table ++ lit " with " ++ method
        ++ lit "." ++ NL ++ NL
        ++ lit "Example:" ++ NL
        ++ lit "  DATA(ls_t881t) = VALUE t881t( )." ++ NL
        ++ lit "  cl_fins_acdoc_util=>get_t881t_emu(" ++ NL
        ++ lit "    EXPORTING iv_rldnr = lv_rldnr iv_spras = sy-langu" ++ NL
        ++ lit "    IMPORTING es_t881t = ls_t881t" ++ NL
        ++ lit "    EXCEPTIONS not_found = 1 OTHERS = 2 )." ++ NL)
  else if str_eqb table (lit "t882g") then
    Ok (lit "Replace direct read of " ++ upper table ++ lit " with " ++ method
        ++ lit "." ++ NL ++ NL
        ++ lit "Example:" ++ NL
        ++ lit "  DATA(ls_t882g) = VALUE t882g( )." ++ NL
        ++ lit "  cl_fins_acdoc_util=>get_t882g_emu(" ++ NL
        ++ lit "    EXPORTING iv_bukrs = lv_bukrs iv_rldnr = lv_rldnr" ++ NL
        ++ lit "    IMPORTING es_t882g = ls_t882g" ++ NL
        ++ lit "    EXCEPTIONS not_found = 1 OTHERS = 2 )." ++ NL)
  else Ok (lit "Use " ++ method ++ lit ".").

Definition suggestion_for_write (table : str) : str :=
  lit "Direct writes to " ++ upper table ++ lit " are disallowed in S/4HANA. "
  ++ lit "These tables are obsolete customizing; redesign to use the supported "
  ++ lit "configuration/APIs and remove the DML.".

(* ------------------------------------------------------------------ *)
(** ** Scanner *)

(** Truth value of an optional string: [None] and [""] are false. *)
Definition truthy (s : option str) : bool :=
  match s with Some (_ :: _) => true | _ => false end.

(** [a or b] on optional strings. *)
Definition py_or (a b : option str) : option str := if truthy a then a else b.

(** [unit.code or ""] *)
Definition code_or_empty (u : Unit.t) : str :=
  match Unit.code u with Some c => c | None => [] end.

(** The two read loops of [scan_unit]: SELECT and OPEN CURSOR. *)
Inductive read_pass : Type := ReadQuery | ReadCursor.

(** The three statement classes, in the order of the passes of [scan_unit]. *)
Inductive pass : Type := Read (p : read_pass) | WriteDML.

(** Message of a read finding in the SELECT pass and in the OPEN CURSOR
    pass. *)
Definition read_message (p : read_pass) (tb : str) : res str :=
  method <- METHOD_MAP tb ;;
  match p with
  | ReadQuery =>
      Ok (lit "Direct read from " ++ upper tb ++ lit " detected in SELECT. "
          ++ lit "Use " ++ method ++ lit " instead of SELECT " ++ ELLIPSIS
          ++ lit " FROM " ++ upper tb ++ lit ".")
  | ReadCursor =>
      Ok (lit "Direct read from " ++ upper tb ++ lit " via OPEN CURSOR FOR SELECT. "
          ++ lit "Use " ++ method ++ lit " instead.")
  end.

(** The dictionary built in the body of the two read loops. *)
Definition read_finding (u : Unit.t) (raw src : str) (p : read_pass)
  (s0 s1 : nat) (tb : str) : res Finding.t :=
  msg <- read_message p tb ;;
  sugg <- suggestion_for_read tb ;;
  Ok (Finding.mk (Unit.pgm_name u) (Unit.inc_name u) (Unit.type u)
        (Unit.name u) (Unit.start_line u) (Unit.end_line u)
        (lit "DirectRead") (lit "info")
        (line_of_offset src s0) msg sugg (snippet_at raw s0 s1)).

(** The dictionary built in the body of the write loop. *)
Definition write_finding (u : Unit.t) (raw src : str)
  (s0 s1 : nat) (tb : str) : Finding.t :=
  let msg := lit "Disallowed write to " ++ upper tb
             ++ lit " detected. Avoid DML on obsolete tables." in
  Finding.mk (Unit.pgm_name u) (Unit.inc_name u) (Unit.type u)
    (Unit.name u) (Unit.start_line u) (Unit.end_line u)
    (lit "DisallowedWrite") (lit "warning")
    (line_of_offset src s0) msg (suggestion_for_write tb) (snippet_at raw s0 s1).

(** One of the two read loops: [for m in re.finditer(src): for tb, tstart,
    tend in find_tables_in_select(stmt): findings.append(...)]. *)
Definition read_loop (u : Unit.t) (raw src : str) (p : read_pass) (re : regex)
  (findings : list Finding.t) : res (list Finding.t) :=
  for_ (finditer re src) findings (fun m findings =>
    let stmt := group0 src m in
    let s0 := m_start m in
    let s1 := m_end m in
    for_ (find_tables_in_select stmt) findings (fun '(tb, tstart, tend) findings =>
      f <- read_finding u raw src p s0 s1 tb ;;
      Ok (findings ++ [f]))).

(** The table named by a match of [WRITE_STMT_RE]. *)
Definition write_table (src : str) (m : rmatch) : option str :=
  canon (py_or (group src m "table1") (group src m "table2")).

Definition write_loop (u : Unit.t) (raw src : str)
  (findings : list Finding.t) : res (list Finding.t) :=
  for_ (finditer WRITE_STMT_RE src) findings (fun m findings =>
    let s0 := m_start m in
    let s1 := m_end m in
    let tb := write_table src m in
    if truthy tb && in_targets tb then
      match tb with
      | Some t => Ok (findings ++ [write_finding u raw src s0 s1 t])
      | None => Ok findings
      end
    else Ok findings).

Definition scan_unit (u : Unit.t) : res ScanResult :=
  let raw := code_or_empty u in
  src <- rm_strings_and_comments raw ;;
  let findings := [] in
  findings <- read_loop u raw src ReadQuery STMT_SELECT_RE findings ;;
  findings <- read_loop u raw src ReadCursor STMT_OPEN_CURSOR_RE findings ;;
  findings <- write_loop u raw src findings ;;
  Ok (mkResult u findings).

(* ------------------------------------------------------------------ *)
(** ** Endpoints *)

Definition scan_rule_array (units : list Unit.t) : res (list ScanResult) :=
  for_ units [] (fun u results =>
    r <- scan_unit u ;;
    match rule628_findings r with
    | _ :: _ => Ok (results ++ [r])
    | [] => Ok results
    end).

Definition scan_rule_single (u : Unit.t) : res ScanResult := scan_unit u.

(* ------------------------------------------------------------------ *)
(** ** Definitions used to state the properties *)

(** Closed form of [while_loop] on the part of the line still to read
    (lemma [while_loop_closed]). *)
Function blank_chars (in_str : bool) (l : str) {struct l} : str :=
  match l with
  | [] => []
  | ch :: tl =>
      if Ascii.eqb ch QUOTE then
        if in_str then
          match tl with
          | nx :: tl' =>
              if Ascii.eqb nx QUOTE then ch :: nx :: blank_chars true tl'
              else ch :: blank_chars false tl
          | [] => ch :: blank_chars false tl
          end
        else ch :: blank_chars true tl
      else if Ascii.eqb ch DQUOTE && negb in_str then repeat SPACE (length l)
      else (if in_str then SPACE else ch) :: blank_chars in_str tl
  end.

(** Closed form of [sanitize_line] (lemma [sanitize_line_closed]). *)
Definition blank_line (ln : str) : str :=
  if startswith ln [STAR] then repeat SPACE (length ln)
  else blank_chars false ln.

(** Closed form of [rm_strings_and_comments]
    (lemma [rm_strings_and_comments_closed]). *)
Definition sanitized (src : str) : str := concat (map blank_line (splitlines src)).

(** Offsets of the newline characters of a text, counted from [p]. *)
Fixpoint newline_offsets_from (p : nat) (s : str) : list nat :=
  match s with
  | [] => []
  | c :: s' =>
      if Ascii.eqb c LF then p :: newline_offsets_from (S p) s'
      else newline_offsets_from (S p) s'
  end.

Definition newline_offsets (s : str) : list nat := newline_offsets_from 0 s.

(** [name] (in lower case) occurs in [text] at offset [o], in any case. *)
Definition mention_at (name text : str) (o : nat) : bool :=
  startswith (lower (skipn o text)) name.

(** [sub in s] *)
Fixpoint contains (s sub : str) : bool :=
  startswith s sub
  || match s with
     | [] => false
     | _ :: s' => contains s' sub
     end.

(** One [findings.append] of [scan_unit], with the loop variables at that
    point: the pass, the span [s0, s1) of the statement, the table and, in
    the read passes, the offset [tstart] of the table match in the
    statement. *)
Record hit : Type := mkHit {
  h_pass : pass;
  h_s0 : nat;
  h_s1 : nat;
  h_tb : str;
  h_tstart : nat
}.

Definition read_hits (p : read_pass) (re : regex) (src : str) : list hit :=
  flat_map
    (fun m =>
       map (fun '(tb, tstart, tend) =>
              mkHit (Read p) (m_start m) (m_end m) tb tstart)
           (find_tables_in_select (group0 src m)))
    (finditer re src).

Definition write_hits (src : str) : list hit :=
  flat_map
    (fun m =>
       let tb := write_table src m in
       if truthy tb && in_targets tb then
         match tb with
         | Some t => [mkHit WriteDML (m_start m) (m_end m) t 0]
         | None => []
         end
       else [])
    (finditer WRITE_STMT_RE src).

Definition hits (src : str) : list hit :=
  read_hits ReadQuery STMT_SELECT_RE src
  ++ read_hits ReadCursor STMT_OPEN_CURSOR_RE src
  ++ write_hits src.

(** The dictionary appended for a hit. *)
Definition finding_of_hit (u : Unit.t) (raw src : str) (h : hit) : res Finding.t :=
  match h_pass h with
  | Read p => read_finding u raw src p (h_s0 h) (h_s1 h) (h_tb h)
  | WriteDML => Ok (write_finding u raw src (h_s0 h) (h_s1 h) (h_tb h))
  end.



(** What a pattern can match: [matches r cu cs cu' cs'] when [r] matches
    the subject from the cursor [cu] to the cursor [cu'] and extends the
    captures [cs] to [cs'].  The matcher [exec] only returns such matches
    (lemma [exec_sound]). *)
Inductive matches : regex -> cursor -> captures -> cursor -> captures -> Prop :=
| M_Lit c x cu cu' cs :
    advance cu = Some (x, cu') -> ieq c x = true ->
    matches (Lit c) cu cs cu' cs
| M_NotLit c x cu cu' cs :
    advance cu = Some (x, cu') -> ieq c x = false ->
    matches (NotLit c) cu cs cu' cs
| M_Space x cu cu' cs :
    advance cu = Some (x, cu') -> is_space x = true ->
    matches Space cu cs cu' cs
| M_Boundary cu cs :
    at_boundary cu = true -> matches Boundary cu cs cu cs
| M_Seq r1 r2 cu cs cu1 cs1 cu2 cs2 :
    matches r1 cu cs cu1 cs1 -> matches r2 cu1 cs1 cu2 cs2 ->
    matches (Seq r1 r2) cu cs cu2 cs2
| M_AltL r1 r2 cu cs cu' cs' :
    matches r1 cu cs cu' cs' -> matches (Alt r1 r2) cu cs cu' cs'
| M_AltR r1 r2 cu cs cu' cs' :
    matches r2 cu cs cu' cs' -> matches (Alt r1 r2) cu cs cu' cs'
| M_OptSome r cu cs cu' cs' :
    matches r cu cs cu' cs' -> matches (Opt r) cu cs cu' cs'
| M_OptNone r cu cs :
    matches (Opt r) cu cs cu cs
| M_StarNil r cu cs :
    matches (Star r) cu cs cu cs
| M_StarCons r cu cs cu1 cs1 cu2 cs2 :
    matches r cu cs cu1 cs1 -> matches (Star r) cu1 cs1 cu2 cs2 ->
    matches (Star r) cu cs cu2 cs2
| M_Plus r cu cs cu1 cs1 cu2 cs2 :
    matches r cu cs cu1 cs1 -> matches (Star r) cu1 cs1 cu2 cs2 ->
    matches (Plus r) cu cs cu2 cs2
| M_Group n r cu cs cu' cs' :
    matches r cu cs cu' cs' ->
    matches (Group n r) cu cs cu' ((n, (pos cu, pos cu')) :: cs')
| M_Eps cu cs :
    matches Eps cu cs cu cs.

(** The pattern has no group. *)
Fixpoint groupless (r : regex) : bool :=
  match r with
  | Group _ _ => false
  | Seq r1 r2 | Alt r1 r2 => groupless r1 && groupless r2
  | Opt r1 | Star r1 | Plus r1 => groupless r1
  | _ => true
  end.

(** The pattern matches no empty text. *)
Fixpoint consuming (r : regex) : bool :=
  match r with
  | Lit _ | NotLit _ | Space => true
  | Seq r1 r2 => consuming r1 || consuming r2
  | Alt r1 r2 => consuming r1 && consuming r2
  | Plus r1 | Group _ r1 => consuming r1
  | _ => false
  end.

(** The cursor stands in [text] at its offset. *)
Definition on_text (text : str) (cu : cursor) : Prop :=
  rest cu = skipn (pos cu) text.

(** The character of [text] at offset [b], if there is one, is no word
    character. *)
Definition no_word_at (text : str) (b : nat) : Prop :=
  forall c, nth_error text b = Some c -> is_word c = false.

(** The matcher finds a match. *)
Definition succeeds (o : option (cursor * captures)) : Prop := o <> None.

(** What the write pattern reports: a target table that is [t881] only
    where no [t] follows it. *)
Definition longest_table (text : str) (a b : nat) : Prop :=
  slice text a b <> []
  /\ In (lower (slice text a b)) TARGET_TABLES
  /\ (lower (slice text a b) = lit "t881" ->
      forall c, nth_error text b = Some c -> lower_char c <> "t"%char).

(** A unit with the given code and arbitrary other fields. *)
Definition unit_with (meta : Unit.t) (c : option str) : Unit.t :=
  Unit.mk (Unit.pgm_name meta) (Unit.inc_name meta) (Unit.type meta)
    (Unit.name meta) (Unit.start_line meta) (Unit.end_line meta) c.

(** A character of the sanitized text is the character of the raw text at
    the same offset or a space. *)
Definition kept_or_blank (a b : ascii) : Prop := b = a \/ b = SPACE.

(** No target table is mentioned in the text, in any case. *)
Definition no_mention (text : str) : Prop :=
  forall name o, In name TARGET_TABLES -> mention_at name text o = false.

(** [f] is the dictionary appended for the hit [h]. *)
Definition built (u : Unit.t) (raw src : str) (h : hit) (f : Finding.t) : Prop :=
  finding_of_hit u raw src h = Ok f.

(** The result has a finding: the test of the batch interface. *)
Definition has_findings (r : ScanResult) : bool :=
  match rule628_findings r with
  | [] => false
  | _ :: _ => true
  end.

(** The statement of the read-detection example, on line 3 after the lines
    [l1] and [l2]. *)
Definition on_line_3 (l1 l2 : str) : str :=
  l1 ++ NL ++ l2 ++ NL ++ lit "SELECT * FROM t881 INTO TABLE lt_t881.".

Definition read_detected_on_line_3 (u : Unit.t) : Prop :=
  exists f,
    scan_unit u = Ok (mkResult u [f])
    /\ Finding.issue_type f = lit "DirectRead"
    /\ Finding.severity f = lit "info"
    /\ Finding.line f = 3
    /\ suggestion_for_read (lit "t881") = Ok (Finding.suggestion f)
    /\ contains (Finding.suggestion f) (lit "cl_fins_acdoc_util=>get_t881_emu") = true
    /\ contains (Finding.suggestion f) (lit "EXPORTING iv_rldnr = lv_rldnr") = true
    /\ contains (Finding.suggestion f) (lit "IMPORTING es_t881  = ls_t881") = true
    /\ contains (Finding.suggestion f) (lit "EXCEPTIONS not_found = 1 OTHERS = 2") = true.

(** The accessor of a target table, as [METHOD_MAP] spells it. *)
Definition accessor (table : str) : str :=
  lit "cl_fins_acdoc_util=>get_" ++ table ++ lit "_emu".

(** The pattern matches no full stop. *)
Fixpoint avoids_dot (r : regex) : bool :=
  match r with
  | Lit c => negb (ieq c DOT)
  | NotLit c => ieq c DOT
  | Space | Boundary | Eps => true
  | Seq r1 r2 | Alt r1 r2 => avoids_dot r1 && avoids_dot r2
  | Opt r1 | Star r1 | Plus r1 | Group _ r1 => avoids_dot r1
  end.

(** The pattern matches texts without a full stop followed by one. *)
Fixpoint ends_at_dot (r : regex) : bool :=
  match r with
  | Lit c => Ascii.eqb c DOT
  | Seq r1 r2 => avoids_dot r1 && ends_at_dot r2
  | Alt r1 r2 => ends_at_dot r1 && ends_at_dot r2
  | Group _ r1 => ends_at_dot r1
  | _ => false
  end.

(** The span of the match [m] in [text] is a statement: it lies in the
    text and its only full stop is its last character. *)
Definition statement_span (text : str) (m : rmatch) : Prop :=
  m_end m <= length text
  /\ exists l, group0 text m = l ++ [DOT] /\ ~ In DOT l
               /\ m_end m = m_start m + length l + 1.

(** [DOT in s] *)
Definition has_full_stop (s : str) : bool := existsb (Ascii.eqb DOT) s.

(** The fields of a finding that [scan_unit] copies from the unit. *)
Definition same_origin (u : Unit.t) (f : Finding.t) : Prop :=
  Finding.pgm_name f = Unit.pgm_name u
  /\ Finding.inc_name f = Unit.inc_name u
  /\ Finding.type f = Unit.type u
  /\ Finding.name f = Unit.name u
  /\ Finding.start_line f = Unit.start_line u
  /\ Finding.end_line f = Unit.end_line u.

(** A finding of one of the two kinds, about one of the target tables. *)
Definition well_formed (u : Unit.t) (f : Finding.t) : Prop :=
  same_origin u f
  /\ ((Finding.issue_type f = lit "DirectRead"
       /\ Finding.severity f = lit "info")
      \/ (Finding.issue_type f = lit "DisallowedWrite"
          /\ Finding.severity f = lit "warning"))
  /\ ~ In LF (Finding.snippet f)
  /\ exists tb,
       In tb TARGET_TABLES
       /\ contains (Finding.message f) (upper tb) = true
       /\ contains (Finding.suggestion f) (upper tb) = true.

(** Two findings that differ at most in the fields copied from the unit. *)
Definition same_report (f g : Finding.t) : Prop :=
  Finding.issue_type f = Finding.issue_type g
  /\ Finding.severity f = Finding.severity g
  /\ Finding.line f = Finding.line g
  /\ Finding.message f = Finding.message g
  /\ Finding.suggestion f = Finding.suggestion g
  /\ Finding.snippet f = Finding.snippet g.

(** The line holds no quote of either kind. *)
Definition quote_free (ln : str) : bool :=
  forallb (fun c => negb (Ascii.eqb c QUOTE || Ascii.eqb c DQUOTE)) ln.


(** The span of a group lies between the offsets [lo] and [hi]. *)
Definition span_in (lo hi : nat) (g : string * (nat * nat)) : Prop :=
  lo <= fst (snd g) /\ fst (snd g) <= snd (snd g) /\ snd (snd g) <= hi.

(** The table of the hit [h] is spelled out in [text], in any case, inside
    the span of the statement of [h]. *)
Definition mentioned_in (text : str) (h : hit) : Prop :=
  exists o,
    h_s0 h <= o
    /\ o + length (h_tb h) <= h_s1 h
    /\ mention_at (h_tb h) text o = true.

(** The snippet of the finding shows, in some spelling, the target table
    that its message names. *)
Definition shows_its_table (f : Finding.t) : Prop :=
  exists tb,
    In tb TARGET_TABLES
    /\ contains (Finding.message f) (upper tb) = true
    /\ contains (lower (Finding.snippet f)) tb = true.

(** The text holds no single quote. *)
Definition apostrophe_free (s : str) : bool :=
  forallb (fun c => negb (Ascii.eqb c QUOTE)) s.


(** The unit has exactly one finding, a direct read of T881 that carries
    the line [n]. *)
Definition read_reported_on_line (n : nat) (u : Unit.t) : Prop :=
  exists f,
    scan_unit u = Ok (mkResult u [f])
    /\ Finding.issue_type f = lit "DirectRead"
    /\ Finding.severity f = lit "info"
    /\ Finding.line f = n
    /\ suggestion_for_read (lit "t881") = Ok (Finding.suggestion f).

(* ------------------------------------------------------------------ *)
(** ** Literals and comments as the specification describes them

    The definitions of this part follow the words of the specification,
    not the source: the rules of its sanitizer, "evaluated per physical
    line, left to right", where a physical line ends at a newline
    character.  They say of each character of a text whether the rules
    neutralize it, and are compared with what [rm_strings_and_comments]
    does. *)

(** The physical lines of a text, each with its newline character. *)
Fixpoint physical_lines_from (cur : str) (s : str) {struct s} : list str :=
  match s with
  | [] => match cur with [] => [] | _ :: _ => [rev cur] end
  | c :: s' =>
      if Ascii.eqb c LF then rev (c :: cur) :: physical_lines_from [] s'
      else physical_lines_from (c :: cur) s'
  end.

Definition physical_lines (s : str) : list str := physical_lines_from [] s.

(** The line terminator is excluded from what the rules blank. *)
Definition not_newline (c : ascii) : bool := negb (Ascii.eqb c LF).

(** Rules 2 to 4: outside a string literal the inline-comment marker
    neutralizes itself and everything to the end of the line; a quote
    toggles the literal state and is kept, a doubled quote inside a
    literal is kept without toggling; the other characters inside a
    literal are neutralized. *)
Function neutral_chars (in_str : bool) (l : str) {struct l} : list bool :=
  match l with
  | [] => []
  | ch :: tl =>
      if Ascii.eqb ch QUOTE then
        if in_str then
          match tl with
          | nx :: tl' =>
              if Ascii.eqb nx QUOTE then false :: false :: neutral_chars true tl'
              else false :: neutral_chars false tl
          | [] => false :: neutral_chars false tl
          end
        else false :: neutral_chars true tl
      else if Ascii.eqb ch DQUOTE && negb in_str then map not_newline l
      else (in_str && not_newline ch) :: neutral_chars in_str tl
  end.

(** Rule 1: a line whose first character is the full-line-comment marker
    is neutralized entirely.  Rule 5: every line starts outside a
    literal. *)
Definition neutral_line (ln : str) : list bool :=
  if startswith ln [STAR] then map not_newline ln
  else neutral_chars false ln.

(** For each character of the text, whether it lies in a full-line
    comment, after an inline-comment marker or inside a string literal. *)
Definition neutralized (x : str) : list bool :=
  concat (map neutral_line (physical_lines x)).

(** Every mention of a target table in the text, in any case, lies in a
    comment or inside a string literal. *)
Definition mentioned_only_in_literals_or_comments (raw : str) : bool :=
  forallb (fun o =>
    forallb (fun name =>
      implb (mention_at name raw o)
            (forallb (fun i => nth i (neutralized raw) false)
                     (seq o (length name))))
      TARGET_TABLES)
    (seq 0 (length raw)).

(** The line boundaries of the text are newline characters, alone or
    after a carriage return: no other character at which
    [str.splitlines] splits occurs in it. *)
Fixpoint standard_breaks (s : str) : bool :=
  match s with
  | [] => true
  | c :: s' =>
      (if Ascii.eqb c LF then true
       else if Ascii.eqb c CR
            then match s' with d :: _ => Ascii.eqb d LF | [] => false end
            else negb (is_linebreak c))
      && standard_breaks s'
  end.

Definition FF : ascii := "012"%char.

(** What a rule neutralizes, the sanitizer has replaced by a space. *)
Definition blanked_if (m : bool) (c : ascii) : Prop := m = true -> c = SPACE.

(* ------------------------------------------------------------------ *)
(** ** The helpers on every offset

    [line_of_offset] and [snippet_at] take Python integers.  [scan_unit]
    calls them with the offsets of a match, which are not negative; there
    they are the functions [line_of_offset] and [snippet_at] above (lemmas
    [line_of_offset_of_nat] and [snippet_at_of_nat]).  The definitions of
    this module give them on every integer: an index below zero counts
    from the end of the text. *)

(** The offset that [str.count] and slicing read for the index [i] in a
    text of length [len]: [len + i] for a negative [i], and 0 if that is
    negative too. *)
Definition adjust_index (len : nat) (i : Z) : nat :=
  if (i <? 0)%Z then Z.to_nat (Z.of_nat len + i) else Z.to_nat i.

Module AnyInt.

(** [text.count("\n", 0, off) + 1] *)
Definition line_of_offset (text : str) (off : Z) : nat :=
  count_newlines text (adjust_index (length text) off) + 1.

Definition snippet_at (text : str) (start end_ : Z) : str :=
  let s := Z.max 0 (start - 140) in
  let e := Z.min (Z.of_nat (length text)) (end_ + 140) in
  escape_newlines
    (slice text (adjust_index (length text) s) (adjust_index (length text) e)).

End AnyInt.

(** Evaluates [scan_unit] on a unit with concrete code. *)
Ltac run_scan u :=
  let v := eval vm_compute in (scan_unit u) in
  assert (scan_unit u = v) by (vm_compute; reflexivity).

(* ------------------------------------------------------------------ *)
(** ** The error monad and the loops *)

Lemma for_snoc (A B : Type) (g : A -> res B) (f : A -> B) (xs : list A) :
  (forall x, In x xs -> g x = Ok (f x)) ->
  forall acc,
    for_ xs acc (fun x out => y <- g x ;; Ok (out ++ [y])) = Ok (acc ++ map f xs).
Proof.
  induction xs as [|x xs IH]; intros Hg acc; simpl.
  - now rewrite app_nil_r.
  - rewrite (Hg x) by now left. simpl.
    rewrite IH by (intros; apply Hg; now right).
    now rewrite <- app_assoc.
Qed.

(* ------------------------------------------------------------------ *)
(** ** The sanitizer *)

Lemma getitem_middle (pre : str) (c : ascii) (tl : str) :
  getitem (pre ++ c :: tl) (length pre) = Ok c.
Proof.
  unfold getitem. rewrite nth_error_app2 by lia.
  now rewrite Nat.sub_diag.
Qed.

Lemma setitem_middle (pre : str) (c v : ascii) (tl : str) :
  setitem (pre ++ c :: tl) (length pre) v = Ok (pre ++ v :: tl).
Proof.
  induction pre as [|x pre IH]; simpl; [reflexivity|].
  now rewrite IH.
Qed.

Lemma snoc_shift (A : Type) (pre : list A) (c : A) (tl : list A) :
  pre ++ c :: tl = (pre ++ [c]) ++ tl.
Proof. now rewrite <- app_assoc. Qed.

Lemma length_snoc (A : Type) (pre : list A) (c : A) :
  length (pre ++ [c]) = length pre + 1.
Proof. rewrite length_app. reflexivity. Qed.

(** The inner [for j in range(i, len(buf))] loop blanks the rest of the
    buffer and never raises. *)
Lemma blank_rest (suf pre : str) :
  for_ (seq (length pre) (length suf)) (pre ++ suf)
       (fun j b => setitem b j SPACE)
  = Ok (pre ++ repeat SPACE (length suf)).
Proof.
  revert pre. induction suf as [|c suf IH]; intros pre; simpl.
  - reflexivity.
  - rewrite setitem_middle. simpl.
    rewrite (snoc_shift pre SPACE suf).
    replace (S (length pre)) with (length (pre ++ [SPACE]))
      by (rewrite length_snoc; lia).
    rewrite IH. now rewrite <- app_assoc.
Qed.

(** The loop of the source returns, without raising, what [blank_chars]
    computes, whenever the fuel exceeds the number of characters left. *)
Lemma while_loop_closed (fuel : nat) :
  forall (suf pre : str) (in_str : bool),
    length suf < fuel ->
    while_loop fuel (pre ++ suf) in_str (length pre)
    = Ok (pre ++ blank_chars in_str suf).
Proof.
  induction fuel as [|fuel IH]; intros suf pre in_str Hf; [lia|].
  cbn [while_loop]. rewrite length_app.
  destruct suf as [|ch tl].
  - replace (length pre <? length pre + length (@nil ascii)) with false
      by (symmetry; apply Nat.ltb_ge; simpl; lia).
    reflexivity.
  - replace (length pre <? length pre + length (ch :: tl)) with true
      by (symmetry; apply Nat.ltb_lt; simpl; lia).
    rewrite getitem_middle. cbn [bind].
    assert (Hstep : forall b,
               while_loop fuel (pre ++ ch :: tl) b (length pre + 1)
               = Ok (pre ++ ch :: blank_chars b tl)).
    { intros b. rewrite (snoc_shift pre ch tl), <- (length_snoc pre ch).
      rewrite IH by (simpl in Hf; lia). now rewrite <- app_assoc. }
    rewrite blank_chars_equation.
    destruct (Ascii.eqb ch QUOTE) eqn:Hq.
    + destruct in_str; [|apply Hstep].
      destruct tl as [|nx tl'].
      * replace (length pre + 1 <? length pre + length [ch]) with false
          by (symmetry; apply Nat.ltb_ge; simpl; lia).
        cbn [bind]. apply Hstep.
      * replace (length pre + 1 <? length pre + length (ch :: nx :: tl'))
          with true by (symmetry; apply Nat.ltb_lt; simpl; lia).
        rewrite (snoc_shift pre ch (nx :: tl')), <- (length_snoc pre ch).
        rewrite getitem_middle. cbn [bind].
        destruct (Ascii.eqb nx QUOTE) eqn:Hn.
        -- rewrite (snoc_shift (pre ++ [ch]) nx tl').
           replace (length pre + 2) with (length ((pre ++ [ch]) ++ [nx]))
             by (rewrite !length_snoc; lia).
           rewrite IH by (simpl in Hf; lia).
           now rewrite <- !app_assoc.
        -- rewrite <- (snoc_shift pre ch (nx :: tl')), (length_snoc pre ch).
           apply Hstep.
    + destruct (Ascii.eqb ch DQUOTE && negb in_str) eqn:Hd.
      * replace (length pre + length (ch :: tl) - length pre)
          with (length (ch :: tl)) by lia.
        apply blank_rest.
      * destruct in_str.
        -- rewrite setitem_middle. cbn [bind].
           rewrite (snoc_shift pre SPACE tl), <- (length_snoc pre SPACE).
           rewrite IH by (simpl in Hf; lia). now rewrite <- app_assoc.
        -- cbn [bind]. apply Hstep.
Qed.

Lemma sanitize_line_closed (ln : str) : sanitize_line ln = Ok (blank_line ln).
Proof.
  unfold sanitize_line, blank_line.
  destruct (startswith ln [STAR]); [reflexivity|].
  apply (@while_loop_closed (S (length ln)) ln [] false). lia.
Qed.

(** [rm_strings_and_comments] never raises. *)
Lemma rm_strings_and_comments_closed (src : str) :
  rm_strings_and_comments src = Ok (sanitized src).
Proof.
  unfold rm_strings_and_comments, sanitized.
  rewrite (for_snoc sanitize_line blank_line)
    by (intros; apply sanitize_line_closed).
  reflexivity.
Qed.

Lemma blank_chars_length (b : bool) (l : str) :
  length (blank_chars b l) = length l.
Proof.
  functional induction (blank_chars b l); cbn [length];
    rewrite ?repeat_length; try rewrite IHs; reflexivity.
Qed.

Lemma blank_line_length (ln : str) : length (blank_line ln) = length ln.
Proof.
  unfold blank_line. destruct (startswith ln [STAR]).
  - apply repeat_length.
  - apply blank_chars_length.
Qed.

Lemma splitlines_from_concat (cur s : str) :
  concat (splitlines_from cur s) = rev cur ++ s.
Proof.
  functional induction (splitlines_from cur s); simpl in *;
    try rewrite IHl; simpl; rewrite <- ?app_assoc; simpl;
    reflexivity.
Qed.

Lemma splitlines_concat (s : str) : concat (splitlines s) = s.
Proof. apply (splitlines_from_concat [] s). Qed.

(** The sanitizer keeps the length of every text. *)
Lemma sanitized_length (src : str) : length (sanitized src) = length src.
Proof.
  unfold sanitized.
  rewrite <- (splitlines_concat src) at 2.
  induction (splitlines src) as [|ln lns IH]; simpl; [reflexivity|].
  now rewrite !length_app, IH, blank_line_length.
Qed.

(* ------------------------------------------------------------------ *)
(** ** The matcher *)

(** [exec r] uses its continuation only through its values. *)
Lemma star_loop_ext (body : cont -> cont) :
  (forall k1 k2, (forall cu cs, k1 cu cs = k2 cu cs) ->
                 forall cu cs, body k1 cu cs = body k2 cu cs) ->
  forall fuel k1 k2, (forall cu cs, k1 cu cs = k2 cu cs) ->
                     forall cu cs, star_loop body fuel k1 cu cs
                                   = star_loop body fuel k2 cu cs.
Proof.
  intros Hb. induction fuel as [|fuel IH]; intros k1 k2 Hk cu cs; simpl.
  - apply Hk.
  - rewrite (Hk cu cs). f_equal. apply Hb. intros cu' cs'.
    destruct (length (rest cu') <? length (rest cu)); [|reflexivity].
    now apply IH.
Qed.

Lemma one_ext (p : ascii -> bool) (k1 k2 : cont) :
  (forall cu cs, k1 cu cs = k2 cu cs) ->
  forall cu cs, one p k1 cu cs = one p k2 cu cs.
Proof.
  intros Hk cu cs. unfold one.
  destruct (advance cu) as [[c cu']|]; [|reflexivity].
  destruct (p c); [apply Hk|reflexivity].
Qed.

Lemma exec_ext (r : regex) :
  forall k1 k2, (forall cu cs, k1 cu cs = k2 cu cs) ->
                forall cu cs, exec r k1 cu cs = exec r k2 cu cs.
Proof.
  induction r; intros k1 k2 Hk cu cs; cbn [exec];
    try (apply one_ext; assumption).
  - rewrite (Hk cu cs). reflexivity.
  - apply IHr1. intros. now apply IHr2.
  - rewrite (IHr1 k1 k2 Hk), (IHr2 k1 k2 Hk). reflexivity.
  - rewrite (IHr k1 k2 Hk), (Hk cu cs). reflexivity.
  - now apply star_loop_ext.
  - apply IHr. intros. now apply star_loop_ext.
  - apply IHr. intros. apply Hk.
  - apply Hk.
Qed.

(** A pattern whose continuation always fails, fails. *)
Lemma star_loop_none (body : cont -> cont) :
  (forall cu cs, body (fun _ _ => None) cu cs = None) ->
  (forall k1 k2, (forall cu cs, k1 cu cs = k2 cu cs) ->
                 forall cu cs, body k1 cu cs = body k2 cu cs) ->
  forall fuel cu cs, star_loop body fuel (fun _ _ => None) cu cs = None.
Proof.
  intros Hn Hb. induction fuel as [|fuel IH]; intros cu cs; simpl;
    [reflexivity|].
  rewrite (Hb _ (fun _ _ => None)); [now rewrite Hn|].
  intros cu' cs'. destruct (_ <? _); [apply IH|reflexivity].
Qed.

Lemma one_none (p : ascii -> bool) (cu : cursor) (cs : captures) :
  one p (fun _ _ => None) cu cs = None.
Proof.
  unfold one. destruct (advance cu) as [[c cu']|]; [|reflexivity].
  now destruct (p c).
Qed.

Lemma exec_none (r : regex) :
  forall cu cs, exec r (fun _ _ => None) cu cs = None.
Proof.
  induction r; intros cu cs; cbn [exec]; try apply one_none.
  - now destruct (at_boundary cu).
  - rewrite (exec_ext r1 _ (fun _ _ => None)); [apply IHr1|apply IHr2].
  - now rewrite IHr1, IHr2.
  - now rewrite IHr.
  - apply star_loop_none; [apply IHr|apply exec_ext].
  - rewrite (exec_ext r _ (fun _ _ => None)); [apply IHr|].
    intros. apply star_loop_none; [apply IHr|apply exec_ext].
  - apply IHr.
  - reflexivity.
Qed.

(** The fuel of [star_loop] is never the reason to stop: any fuel from the
    length of the remaining subject on gives the same result. *)
Lemma star_loop_fuel (r : regex) (k : cont) :
  forall fuel cu cs,
    length (rest cu) <= fuel ->
    star_loop (exec r) (S fuel) k cu cs = star_loop (exec r) fuel k cu cs.
Proof.
  induction fuel as [|fuel IH]; intros cu cs Hlen.
  - cbn [star_loop].
    rewrite (exec_ext r _ (fun _ _ => None)); [now rewrite exec_none|].
    intros cu' cs'.
    replace (length (rest cu') <? length (rest cu)) with false; [reflexivity|].
    symmetry. apply Nat.ltb_ge. lia.
  - cbn [star_loop]. f_equal. apply exec_ext. intros cu' cs'.
    destruct (length (rest cu') <? length (rest cu)) eqn:E; [|reflexivity].
    apply Nat.ltb_lt in E. apply IH. lia.
Qed.

Lemma star_loop_enough_fuel (r : regex) (k : cont) (cu : cursor) (cs : captures) :
  forall extra,
    star_loop (exec r) (length (rest cu) + extra) k cu cs
    = star_loop (exec r) (length (rest cu)) k cu cs.
Proof.
  induction extra as [|extra IH]; [now rewrite Nat.add_0_r|].
  rewrite Nat.add_succ_r, star_loop_fuel by lia. exact IH.
Qed.

(** The matcher only returns matches of the pattern: a result of [exec]
    is a result of the continuation after a match. *)
Lemma star_loop_sound (r : regex) (body : cont -> cont) :
  (forall k cu cs res,
      body k cu cs = Some res ->
      exists cu' cs', matches r cu cs cu' cs' /\ k cu' cs' = Some res) ->
  forall fuel k cu cs res,
    star_loop body fuel k cu cs = Some res ->
    exists cu' cs', matches (Star r) cu cs cu' cs' /\ k cu' cs' = Some res.
Proof.
  intros Hb. induction fuel as [|fuel IH]; intros k cu cs res H; simpl in H.
  - exists cu, cs. split; [apply M_StarNil|exact H].
  - unfold orelse in H.
    destruct (body _ cu cs) as [res'|] eqn:E.
    + injection H as ->. apply Hb in E as [cu1 [cs1 [M1 E]]].
      destruct (length (rest cu1) <? length (rest cu)); [|discriminate].
      apply IH in E as [cu2 [cs2 [M2 E]]].
      exists cu2, cs2. split; [econstructor; eassumption|exact E].
    + exists cu, cs. split; [apply M_StarNil|exact H].
Qed.

Lemma one_sound (p : ascii -> bool) (k : cont) (cu : cursor) (cs : captures)
  (res : cursor * captures) :
  one p k cu cs = Some res ->
  exists x cu', advance cu = Some (x, cu') /\ p x = true /\ k cu' cs = Some res.
Proof.
  unfold one. destruct (advance cu) as [[x cu']|]; [|discriminate].
  destruct (p x) eqn:E; [|discriminate]. intros H. now exists x, cu'.
Qed.

Lemma exec_sound (r : regex) :
  forall k cu cs res,
    exec r k cu cs = Some res ->
    exists cu' cs', matches r cu cs cu' cs' /\ k cu' cs' = Some res.
Proof.
  induction r; intros k cu cs res H; cbn [exec] in H.
  - apply one_sound in H as [x [cu' [Ha [Hp H]]]].
    exists cu', cs. split; [econstructor; eassumption|exact H].
  - apply one_sound in H as [x [cu' [Ha [Hp H]]]].
    exists cu', cs. split; [|exact H].
    econstructor; [eassumption|]. now apply negb_true_iff.
  - apply one_sound in H as [x [cu' [Ha [Hp H]]]].
    exists cu', cs. split; [econstructor; eassumption|exact H].
  - destruct (at_boundary cu) eqn:E; [|discriminate].
    exists cu, cs. split; [now constructor|exact H].
  - apply IHr1 in H as [cu1 [cs1 [M1 H]]].
    apply IHr2 in H as [cu2 [cs2 [M2 H]]].
    exists cu2, cs2. split; [econstructor; eassumption|exact H].
  - unfold orelse in H. destruct (exec r1 k cu cs) as [res'|] eqn:E.
    + injection H as ->. apply IHr1 in E as [cu' [cs' [M E]]].
      exists cu', cs'. split; [now apply M_AltL|exact E].
    + apply IHr2 in H as [cu' [cs' [M H]]].
      exists cu', cs'. split; [now apply M_AltR|exact H].
  - unfold orelse in H. destruct (exec r k cu cs) as [res'|] eqn:E.
    + injection H as ->. apply IHr in E as [cu' [cs' [M E]]].
      exists cu', cs'. split; [now apply M_OptSome|exact E].
    + exists cu, cs. split; [apply M_OptNone|exact H].
  - eapply star_loop_sound; [exact IHr|exact H].
  - apply IHr in H as [cu1 [cs1 [M1 H]]].
    apply (@star_loop_sound r (exec r) IHr) in H as [cu2 [cs2 [M2 H]]].
    exists cu2, cs2. split; [econstructor; eassumption|exact H].
  - apply IHr in H as [cu' [cs' [M H]]].
    eexists _, _. split; [constructor; eassumption|exact H].
  - exists cu, cs. split; [constructor|exact H].
Qed.

Lemma match_at_sound (r : regex) (cu : cursor) (m : rmatch) :
  match_at r cu = Some m ->
  exists cu', matches r cu [] cu' (m_groups m)
              /\ m_start m = pos cu /\ m_end m = pos cu'.
Proof.
  unfold match_at.
  destruct (exec r _ cu []) as [[cu' cs]|] eqn:E; [|discriminate].
  intros [= <-]. apply exec_sound in E as [cu1 [cs1 [M [= -> ->]]]].
  now exists cu'.
Qed.

(** A pattern without groups leaves the captures as they are. *)
Lemma matches_groupless (r : regex) (cu cu' : cursor) (cs cs' : captures) :
  matches r cu cs cu' cs' -> groupless r = true -> cs' = cs.
Proof.
  induction 1; simpl; intros G; try reflexivity;
    try apply andb_true_iff in G as [G1 G2]; try discriminate; auto.
  - rewrite IHmatches2, IHmatches1; auto.
  - rewrite IHmatches2, IHmatches1; auto.
  - rewrite IHmatches2, IHmatches1; auto.
Qed.

Lemma skipn_cons (A : Type) (p : nat) (l : list A) (c : A) (tl : list A) :
  skipn p l = c :: tl -> skipn (S p) l = tl /\ nth_error l p = Some c.
Proof.
  revert l. induction p as [|p IH]; intros l H.
  - destruct l; simpl in H; [discriminate|]. injection H as -> ->. now split.
  - destruct l as [|x l]; simpl in H; [discriminate|]. now apply IH.
Qed.

Lemma advance_on_text (text : str) (cu cu' : cursor) (x : ascii) :
  on_text text cu -> advance cu = Some (x, cu') ->
  on_text text cu' /\ pos cu' = S (pos cu) /\ prev cu' = Some x
  /\ nth_error text (pos cu) = Some x.
Proof.
  unfold on_text, advance. intros Ht H.
  destruct (rest cu) as [|c tl] eqn:E; [discriminate|].
  injection H as <- <-. simpl.
  symmetry in Ht. apply skipn_cons in Ht as [Hs Hn]. auto.
Qed.

(** A match moves the cursor forward in the same text. *)
Lemma matches_on_text (text : str) (r : regex) (cu cu' : cursor)
  (cs cs' : captures) :
  matches r cu cs cu' cs' -> on_text text cu ->
  on_text text cu' /\ pos cu <= pos cu'.
Proof.
  induction 1; intros Ht; auto;
    try (destruct (advance_on_text Ht H) as [Ht' [Hp _]]; split; [assumption|lia]).
  - destruct (IHmatches1 Ht) as [Ht1 Hp1].
    destruct (IHmatches2 Ht1) as [Ht2 Hp2]. split; [assumption|lia].
  - destruct (IHmatches1 Ht) as [Ht1 Hp1].
    destruct (IHmatches2 Ht1) as [Ht2 Hp2]. split; [assumption|lia].
  - destruct (IHmatches1 Ht) as [Ht1 Hp1].
    destruct (IHmatches2 Ht1) as [Ht2 Hp2]. split; [assumption|lia].
Qed.

(** *** Character tables *)

Ltac all_chars x :=
  destruct x as [[] [] [] [] [] [] [] []]; vm_compute;
  first [reflexivity | discriminate | tauto | intros; discriminate].

Lemma is_word_lower (x : ascii) : is_word (lower_char x) = is_word x.
Proof. all_chars x. Qed.

Lemma space_not_word (x : ascii) : is_space x = true -> is_word x = false.
Proof. all_chars x. Qed.

Lemma ieq_lower (c x : ascii) : ieq c x = true -> lower_char x = lower_char c.
Proof. unfold ieq. apply Ascii.eqb_eq. Qed.

Lemma ieq_word (c x : ascii) : ieq c x = true -> is_word x = is_word c.
Proof.
  intros H. apply ieq_lower in H.
  now rewrite <- (is_word_lower x), H, is_word_lower.
Qed.

(** *** Inversion of matches *)

Lemma matches_seq_inv (r1 r2 : regex) (cu cu2 : cursor) (cs cs2 : captures) :
  matches (Seq r1 r2) cu cs cu2 cs2 ->
  exists cu1 cs1, matches r1 cu cs cu1 cs1 /\ matches r2 cu1 cs1 cu2 cs2.
Proof. inversion 1; subst; eauto. Qed.

Lemma matches_alt_inv (r1 r2 : regex) (cu cu' : cursor) (cs cs' : captures) :
  matches (Alt r1 r2) cu cs cu' cs' ->
  matches r1 cu cs cu' cs' \/ matches r2 cu cs cu' cs'.
Proof. inversion 1; subst; auto. Qed.

Lemma matches_opt_inv (r : regex) (cu cu' : cursor) (cs cs' : captures) :
  matches (Opt r) cu cs cu' cs' ->
  matches r cu cs cu' cs' \/ (cu' = cu /\ cs' = cs).
Proof. inversion 1; subst; auto. Qed.

Lemma matches_group_inv (n : string) (r : regex) (cu cu' : cursor)
  (cs cs2 : captures) :
  matches (Group n r) cu cs cu' cs2 ->
  exists cs', matches r cu cs cu' cs' /\ cs2 = (n, (pos cu, pos cu')) :: cs'.
Proof. inversion 1; subst; eauto. Qed.

Lemma matches_boundary_inv (cu cu' : cursor) (cs cs' : captures) :
  matches Boundary cu cs cu' cs' -> cu' = cu /\ cs' = cs /\ at_boundary cu = true.
Proof. inversion 1; subst; auto. Qed.

Lemma advance_inv (cu cu' : cursor) (x : ascii) :
  advance cu = Some (x, cu') ->
  rest cu = x :: rest cu' /\ pos cu' = S (pos cu) /\ prev cu' = Some x.
Proof.
  unfold advance. destruct (rest cu) as [|c tl]; [discriminate|].
  intros [= <- <-]. auto.
Qed.

Lemma matches_lit_inv (c : ascii) (cu cu' : cursor) (cs cs' : captures) :
  matches (Lit c) cu cs cu' cs' ->
  cs' = cs
  /\ exists x, rest cu = x :: rest cu' /\ pos cu' = S (pos cu)
               /\ prev cu' = Some x /\ ieq c x = true.
Proof.
  inversion 1; subst. split; [reflexivity|]. exists x.
  match goal with H : advance _ = _ |- _ => apply advance_inv in H end.
  tauto.
Qed.

Lemma matches_star_space_inv (cu cu' : cursor) (cs cs' : captures) :
  matches (Star Space) cu cs cu' cs' ->
  cs' = cs /\ (cu' = cu \/ exists x tl, rest cu = x :: tl /\ is_space x = true).
Proof.
  intros M. split; [now apply (matches_groupless M)|].
  inversion M; subst; [now left|right].
  match goal with H : matches Space _ _ _ _ |- _ => inversion H; subst end.
  match goal with H : advance _ = _ |- _ => apply advance_inv in H as [Hr _] end.
  eauto.
Qed.

Ltac inv_lits :=
  repeat match goal with
  | H : matches (Seq _ _) _ _ _ _ |- _ =>
      let cu1 := fresh "cu" in
      let cs1 := fresh "cs" in
      let M1 := fresh "M" in
      let M2 := fresh "M" in
      apply matches_seq_inv in H as (cu1 & cs1 & M1 & M2)
  | H : matches (Lit _) _ _ _ _ |- _ =>
      let x := fresh "x" in
      let Hr := fresh "Hr" in
      let Hp := fresh "Hp" in
      let Hv := fresh "Hv" in
      let Hi := fresh "Hi" in
      let E := fresh "E" in
      apply matches_lit_inv in H as (E & x & Hr & Hp & Hv & Hi); subst
  end.

Ltac use_rest :=
  repeat match goal with
  | H : rest _ = _ :: rest _ |- _ => rewrite H; clear H
  end.

Ltac use_ieq :=
  repeat match goal with
  | H : ieq _ _ = true |- _ => apply ieq_lower in H; rewrite H; clear H
  end.

Ltac name_read :=
  split; [cbn [app]; use_rest; reflexivity|];
  split; [cbn [length]; lia|];
  split; [eassumption|];
  split; [erewrite ieq_word by eassumption; reflexivity|];
  cbn [lower map]; use_ieq; vm_compute; auto.

(** A match of [TABLE_NAME_RE] reads a target table, in any case, and
    stops after a word character. *)
Lemma table_name_inv (cu cu' : cursor) (cs cs' : captures) :
  matches TABLE_NAME_RE cu cs cu' cs' ->
  cs' = cs
  /\ exists l x, rest cu = l ++ rest cu'
                 /\ pos cu' = pos cu + length l
                 /\ prev cu' = Some x /\ is_word x = true
                 /\ In (lower l) TARGET_TABLES.
Proof.
  intros M. split; [now apply (matches_groupless M)|].
  cbv [TABLE_NAME_RE word lit list_ascii_of_string] in M.
  apply matches_alt_inv in M as [M|M].
  - apply matches_seq_inv in M as (cu4 & cs4 & M & Mt).
    inv_lits. apply matches_opt_inv in Mt as [Mt|[-> ->]].
    + inv_lits. eexists [_; _; _; _; _], _. name_read.
    + eexists [_; _; _; _], _. name_read.
  - inv_lits. eexists [_; _; _; _; _], _. name_read.
Qed.

Lemma peel (text : str) (r1 r2 : regex) (cu cu2 : cursor) (cs cs2 : captures) :
  matches (Seq r1 r2) cu cs cu2 cs2 ->
  groupless r1 = true -> on_text text cu ->
  exists cu1, on_text text cu1 /\ pos cu <= pos cu1
              /\ matches r2 cu1 cs cu2 cs2.
Proof.
  intros M G Ht. apply matches_seq_inv in M as (cu1 & cs1 & M1 & M2).
  rewrite (matches_groupless M1 G) in M2.
  destruct (matches_on_text M1 Ht) as [Ht1 Hp]. eauto.
Qed.

Lemma firstn_length_app (A : Type) (l r : list A) : firstn (length l) (l ++ r) = l.
Proof. induction l as [|x l IH]; simpl; [reflexivity|now rewrite IH]. Qed.

Lemma nth_error_skipn_head (A : Type) (l : list A) (b : nat) (c : A) :
  nth_error l b = Some c -> exists tl, skipn b l = c :: tl.
Proof.
  revert l. induction b as [|b IH]; intros [|x l] H; simpl in *;
    try discriminate.
  - injection H as ->. eauto.
  - now apply IH.
Qed.

(** What [TABLE_TOKEN] and the boundary after it leave behind the table
    name: white space, a closing parenthesis, or a word boundary. *)
Lemma after_table_no_word (text : str) (c8 cu' : cursor) (s8 cs : captures)
  (x0 : ascii) :
  matches (Seq (Seq (Star Space) (Opt (Lit ")"))) Boundary) c8 s8 cu' cs ->
  on_text text c8 -> prev c8 = Some x0 -> is_word x0 = true ->
  cs = s8 /\ pos c8 <= pos cu' /\ no_word_at text (pos c8).
Proof.
  intros M Ht Hv Hw.
  split; [now apply (matches_groupless M)|].
  split; [now apply (matches_on_text M Ht)|].
  intros c Hc. apply nth_error_skipn_head in Hc as [tl Hc].
  rewrite <- Ht in Hc.
  apply matches_seq_inv in M as (c9 & s9 & M & Mb).
  apply matches_boundary_inv in Mb as (-> & -> & Hb).
  apply matches_seq_inv in M as (cX & sX & Ms & Mo).
  apply matches_star_space_inv in Ms as [-> [->|(x & tl' & Hr & Hx)]].
  - apply matches_opt_inv in Mo as [Mo|[-> ->]].
    + apply matches_lit_inv in Mo as (_ & x & Hr & _ & _ & Hi).
      rewrite Hr in Hc. injection Hc as -> _.
      now rewrite (ieq_word _ _ Hi).
    + unfold at_boundary, word_before, word_after in Hb.
      rewrite Hv, Hw, Hc in Hb. now destruct (is_word c).
  - rewrite Hr in Hc. injection Hc as -> _. now apply space_not_word.
Qed.

(** A match of [FROM_OR_JOIN_TARGET_RE] captures, as its only group, a
    target table that is not followed by a word character. *)
Lemma from_or_join_inv (text : str) (cu cu' : cursor) (cs : captures) :
  matches FROM_OR_JOIN_TARGET_RE cu [] cu' cs -> on_text text cu ->
  exists a b,
    cs = [("table"%string, (a, b))]
    /\ pos cu <= a /\ b <= pos cu'
    /\ slice text a b <> []
    /\ In (lower (slice text a b)) TARGET_TABLES
    /\ no_word_at text b.
Proof.
  intros M Ht.
  cbv [FROM_OR_JOIN_TARGET_RE TABLE_TOKEN seqs] in M.
  apply (peel (text := text)) in M as (c1 & Ht1 & Hp1 & M); [|reflexivity|assumption].
  apply (peel (text := text)) in M as (c2 & Ht2 & Hp2 & M); [|reflexivity|assumption].
  apply (peel (text := text)) in M as (c3 & Ht3 & Hp3 & M); [|reflexivity|assumption].
  apply matches_seq_inv in M as (c9 & s9 & M & Mb).
  apply (peel (text := text)) in M as (c4 & Ht4 & Hp4 & M); [|reflexivity|assumption].
  apply (peel (text := text)) in M as (c5 & Ht5 & Hp5 & M); [|reflexivity|assumption].
  apply (peel (text := text)) in M as (c6 & Ht6 & Hp6 & M); [|reflexivity|assumption].
  apply (peel (text := text)) in M as (c7 & Ht7 & Hp7 & M); [|reflexivity|assumption].
  apply matches_seq_inv in M as (c8 & s8 & Mg & M).
  apply matches_group_inv in Mg as (s' & Mn & ->).
  destruct (matches_on_text Mn Ht7) as [Ht8 Hp8].
  apply table_name_inv in Mn as (-> & l & x & Hr & Hp & Hv & Hw & Hin).
  destruct (@after_table_no_word text c8 cu' [("table"%string, (pos c7, pos c8))]
              cs x) as (-> & Hp9 & Hnw); try assumption.
  { econstructor; eassumption. }
  assert (Hsl : slice text (pos c7) (pos c8) = l).
  { unfold slice. rewrite <- Ht7, Hr, Hp.
    replace (pos c7 + length l - pos c7) with (length l) by lia.
    apply firstn_length_app. }
  exists (pos c7), (pos c8). rewrite Hsl.
  repeat split; try assumption; try lia.
  intros ->. simpl in Hin. intuition discriminate.
Qed.

(** Every match of [finditer] is a match at a cursor of the text. *)
Lemma scan_match_at (text : str) (r : regex) (s : str) :
  forall skip p pv,
    s = skipn p text ->
    forall m, In m (scan r skip p pv s) ->
              exists cu, on_text text cu /\ match_at r cu = Some m.
Proof.
  induction s as [|c s IH]; intros skip p pv Hs m Hin.
  - destruct skip; simpl in Hin; [|contradiction].
    destruct (match_at r _) as [m0|] eqn:E; [|contradiction].
    destruct Hin as [<-|[]]. eexists. split; [|exact E]. exact Hs.
  - assert (Hs' : s = skipn (S p) text).
    { symmetry in Hs. now apply skipn_cons in Hs as [-> _]. }
    destruct skip as [|k]; simpl in Hin.
    + destruct (match_at r _) as [m0|] eqn:E.
      * destruct Hin as [<-|Hin].
        -- eexists. split; [|exact E]. exact Hs.
        -- eapply IH; eassumption.
      * eapply IH; eassumption.
    + eapply IH; eassumption.
Qed.

Lemma finditer_match_at (text : str) (r : regex) (m : rmatch) :
  In m (finditer r text) ->
  exists cu, on_text text cu /\ match_at r cu = Some m.
Proof. apply scan_match_at. reflexivity. Qed.

(** In the read classes a reported table is a target table as the
    statement spells it, in any case, and what follows it in the statement
    is no word character: the name is never a proper prefix of an
    identifier, so [t881] is not reported where the statement reads
    [t881t]. *)
Theorem read_tables_right_anchored (stmt : str) :
  Forall (fun '(tb, tstart, tend) =>
            exists a b,
              tstart <= a /\ b <= tend
              /\ tb = lower (slice stmt a b)
              /\ In tb TARGET_TABLES
              /\ no_word_at stmt b)
         (find_tables_in_select stmt).
Proof.
  apply Forall_forall. intros [[tb ts] te] Hin.
  unfold find_tables_in_select in Hin.
  apply in_flat_map in Hin as [m [Hm Hin]]. cbv zeta in Hin.
  apply finditer_match_at in Hm as (cu & Ht & Hm).
  apply match_at_sound in Hm as (cu' & M & Hs & He).
  destruct (@from_or_join_inv stmt cu cu' _ M Ht)
    as (a & b & Hg & Ha & Hb & Hne & Htb & Hnw).
  unfold group in Hin. rewrite Hg in Hin. cbn [lookup_group String.eqb] in Hin.
  simpl in Hin.
  destruct (slice stmt a b) as [|c t] eqn:Hsl; [now contradiction Hne|].
  cbn [canon] in Hin.
  destruct (in_targets _); [|contradiction].
  destruct Hin as [[= <- <- <-]|[]].
  exists a, b.
  split; [lia|]. split; [lia|]. split; [now rewrite Hsl|].
  split; [exact Htb|exact Hnw].
Qed.

(** *** No empty match *)

Lemma matches_pos_le (r : regex) (cu cu' : cursor) (cs cs' : captures) :
  matches r cu cs cu' cs' -> pos cu <= pos cu'.
Proof.
  induction 1; try lia;
    match goal with H : advance _ = _ |- _ =>
      apply advance_inv in H as (_ & Hp & _); lia end.
Qed.

Lemma matches_consuming (r : regex) (cu cu' : cursor) (cs cs' : captures) :
  matches r cu cs cu' cs' -> consuming r = true -> pos cu < pos cu'.
Proof.
  induction 1; cbn [consuming]; intros C; try discriminate C; auto;
    try (match goal with H : advance _ = _ |- _ =>
           apply advance_inv in H as (_ & Hp & _); lia end).
  - apply orb_true_iff in C as [C|C].
    + specialize (IHmatches1 C).
      match goal with H : matches r2 _ _ _ _ |- _ =>
        apply matches_pos_le in H end. lia.
    + specialize (IHmatches2 C).
      match goal with H : matches r1 _ _ _ _ |- _ =>
        apply matches_pos_le in H end. lia.
  - apply andb_true_iff in C as [C _]. auto.
  - apply andb_true_iff in C as [_ C]. auto.
  - specialize (IHmatches1 C).
    match goal with H : matches (Star _) _ _ _ _ |- _ =>
      apply matches_pos_le in H end. lia.
Qed.

(** The four patterns of the source match no empty text, so the matches of
    [finditer] are those of Python's [finditer]. *)
Lemma source_patterns_consuming :
  consuming STMT_SELECT_RE = true
  /\ consuming STMT_OPEN_CURSOR_RE = true
  /\ consuming FROM_OR_JOIN_TARGET_RE = true
  /\ consuming WRITE_STMT_RE = true.
Proof. repeat split; reflexivity. Qed.

Lemma finditer_consuming (r : regex) (text : str) :
  consuming r = true ->
  Forall (fun m => m_start m < m_end m) (finditer r text).
Proof.
  intros C. apply Forall_forall. intros m Hm.
  apply finditer_match_at in Hm as (cu & _ & Hm).
  apply match_at_sound in Hm as (cu' & M & -> & ->).
  now apply (matches_consuming M).
Qed.

(** *** The write pattern keeps the longest table name *)

Lemma matches_rest_suffix (r : regex) (cu cu' : cursor) (cs cs' : captures) :
  matches r cu cs cu' cs' -> exists l, rest cu = l ++ rest cu'.
Proof.
  induction 1;
    try (match goal with H : advance _ = _ |- _ =>
           apply advance_inv in H as [Hr _] end;
         exists [x]; exact Hr);
    try (exists []; reflexivity);
    try assumption.
  - destruct IHmatches1 as [l1 E1], IHmatches2 as [l2 E2].
    exists (l1 ++ l2). now rewrite E1, E2, app_assoc.
  - destruct IHmatches1 as [l1 E1], IHmatches2 as [l2 E2].
    exists (l1 ++ l2). now rewrite E1, E2, app_assoc.
  - destruct IHmatches1 as [l1 E1], IHmatches2 as [l2 E2].
    exists (l1 ++ l2). now rewrite E1, E2, app_assoc.
Qed.

Lemma ieq_dot (x : ascii) : ieq DOT x = true -> x = DOT.
Proof. all_chars x. Qed.

(** A match of [WRITE_TAIL] ends with a full stop of the subject. *)
Lemma write_tail_dot (cu cu' : cursor) (cs cs' : captures) :
  matches WRITE_TAIL cu cs cu' cs' -> In DOT (rest cu).
Proof.
  intros M. cbv [WRITE_TAIL seqs] in M.
  apply matches_seq_inv in M as (c1 & s1 & M1 & M).
  apply matches_seq_inv in M as (c2 & s2 & M2 & M).
  apply matches_seq_inv in M as (c3 & s3 & M3 & M).
  apply matches_lit_inv in M as (_ & x & Hr & _ & _ & Hi).
  apply ieq_dot in Hi as ->.
  apply matches_rest_suffix in M1 as [l1 E1].
  apply matches_rest_suffix in M2 as [l2 E2].
  apply matches_rest_suffix in M3 as [l3 E3].
  rewrite E1, E2, E3, Hr. rewrite !in_app_iff. simpl. auto.
Qed.


Lemma orelse_fallback (a b : option (cursor * captures)) :
  succeeds b -> succeeds (orelse a b).
Proof. unfold succeeds. destruct a; simpl; [discriminate|auto]. Qed.

Lemma star_loop_fallback (body : cont -> cont) (fuel : nat) (k : cont)
  (cu : cursor) (cs : captures) :
  succeeds (k cu cs) -> succeeds (star_loop body fuel k cu cs).
Proof. destruct fuel; simpl; [auto|apply orelse_fallback]. Qed.

(** [[^.]*\.] finds the first full stop of the subject. *)
Lemma not_dot_star_complete (k : cont) (l : str) :
  (forall cu cs, succeeds (k cu cs)) ->
  In DOT l ->
  forall fuel p pv cs,
    length l <= fuel ->
    succeeds (star_loop (exec (NotLit DOT)) fuel (exec (Lit DOT) k)
                (mkCursor p pv l) cs).
Proof.
  intros Hk. induction l as [|x l IH]; intros Hin fuel p pv cs Hf;
    [contradiction|].
  destruct fuel as [|fuel]; [simpl in Hf; lia|].
  cbn [star_loop exec]. unfold one at 1. cbn [advance rest pos].
  destruct (ieq DOT x) eqn:E; cbn [negb].
  - apply orelse_fallback. unfold one. cbn [advance rest pos].
    rewrite E. apply Hk.
  - cbn [rest length].
    replace (length l <? S (length l)) with true
      by (symmetry; apply Nat.ltb_lt; lia).
    assert (Hl : In DOT l).
    { destruct Hin as [Hx|Hin]; [|exact Hin].
      rewrite Hx in E. vm_compute in E. discriminate E. }
    pose proof (IH Hl fuel (S p) (Some x) cs) as H.
    unfold succeeds in *. unfold orelse.
    destruct (star_loop _ fuel _ _ cs); [discriminate|].
    exfalso. apply H; [simpl in Hf; lia|reflexivity].
Qed.

(** [WRITE_TAIL] matches wherever a full stop follows. *)
Lemma write_tail_complete (k : cont) (cu : cursor) (cs : captures) :
  (forall cu cs, succeeds (k cu cs)) ->
  In DOT (rest cu) -> succeeds (exec WRITE_TAIL k cu cs).
Proof.
  intros Hk Hin. cbv [WRITE_TAIL seqs]. cbn [exec].
  apply star_loop_fallback. apply orelse_fallback.
  destruct cu as [p pv l]. apply not_dot_star_complete; auto.
Qed.


Lemma exec_seq (r1 r2 : regex) (k : cont) :
  exec (Seq r1 r2) k = exec r1 (exec r2 k).
Proof. reflexivity. Qed.

Lemma exec_alt (r1 r2 : regex) (k : cont) (cu : cursor) (cs : captures) :
  exec (Alt r1 r2) k cu cs = orelse (exec r1 k cu cs) (exec r2 k cu cs).
Proof. reflexivity. Qed.

Lemma exec_group (n : string) (r : regex) (k : cont) (cu : cursor)
  (cs : captures) :
  exec (Group n r) k cu cs
  = exec r (fun cu' cs' => k cu' ((n, (pos cu, pos cu')) :: cs')) cu cs.
Proof. reflexivity. Qed.

Lemma orelse_some (A : Type) (a b : option A) (v : A) :
  orelse a b = Some v -> a = Some v \/ (a = None /\ b = Some v).
Proof. destruct a; simpl; auto. Qed.

Lemma exec_seq_peel (text : str) (r1 r2 : regex) (k : cont) (cu : cursor)
  (cs : captures) (res : cursor * captures) :
  exec (Seq r1 r2) k cu cs = Some res -> on_text text cu ->
  exists cu1 cs1,
    matches r1 cu cs cu1 cs1 /\ on_text text cu1 /\ pos cu <= pos cu1
    /\ exec r2 k cu1 cs1 = Some res.
Proof.
  rewrite exec_seq. intros H Ht.
  apply exec_sound in H as (cu1 & cs1 & M & H).
  destruct (matches_on_text M Ht) as [Ht1 Hp]. eauto 8.
Qed.

(** The optional [t] of [t881t?] is taken whenever the rest of the pattern
    matches after it. *)
Lemma opt_t_inv (k : cont) (cu : cursor) (cs : captures)
  (res : cursor * captures) :
  exec (Opt (Lit "t")) k cu cs = Some res ->
  (exists x cu6, advance cu = Some (x, cu6) /\ ieq "t" x = true
                 /\ k cu6 cs = Some res)
  \/ (k cu cs = Some res
      /\ forall x cu6, advance cu = Some (x, cu6) -> ieq "t" x = true ->
                       k cu6 cs = None).
Proof.
  cbn [exec]. unfold one. intros H.
  destruct (advance cu) as [[x cu6]|].
  - destruct (ieq "t" x) eqn:E.
    + apply orelse_some in H as [H|[Hn H]].
      * left. now exists x, cu6.
      * right. split; [exact H|]. now intros ? ? [= <- <-] _.
    + right. split; [exact H|]. intros ? ? [= <- <-] E'. congruence.
  - right. split; [exact H|]. discriminate.
Qed.

Ltac word_read :=
  split; [cbn [app]; use_rest; reflexivity|];
  split; [lia|];
  cbn [lower map]; use_ieq; reflexivity.

Lemma word_t881_inv (cu cu' : cursor) (cs cs' : captures) :
  matches (word (lit "t881")) cu cs cu' cs' ->
  cs' = cs
  /\ exists x1 x2 x3 x4,
       rest cu = [x1; x2; x3; x4] ++ rest cu'
       /\ pos cu' = pos cu + 4
       /\ lower [x1; x2; x3; x4] = lit "t881".
Proof.
  intros M. split; [now apply (matches_groupless M)|].
  cbv [word lit list_ascii_of_string] in M. inv_lits.
  eexists _, _, _, _. word_read.
Qed.

Lemma word_t882g_inv (cu cu' : cursor) (cs cs' : captures) :
  matches (word (lit "t882g")) cu cs cu' cs' ->
  cs' = cs
  /\ exists x1 x2 x3 x4 x5,
       rest cu = [x1; x2; x3; x4; x5] ++ rest cu'
       /\ pos cu' = pos cu + 5
       /\ lower [x1; x2; x3; x4; x5] = lit "t882g".
Proof.
  intros M. split; [now apply (matches_groupless M)|].
  cbv [word lit list_ascii_of_string] in M. inv_lits.
  eexists _, _, _, _, _. word_read.
Qed.

(** The end of a match of the write pattern: the captures are those of
    the table group on top of the captures before it. *)
Lemma write_tail_done (n : string) (a : nat) (cu : cursor) (cs : captures)
  (res : cursor * captures) :
  exec WRITE_TAIL done cu ((n, (a, pos cu)) :: cs) = Some res ->
  In DOT (rest cu) /\ exists cuf, res = (cuf, (n, (a, pos cu)) :: cs).
Proof.
  intros H. apply exec_sound in H as (cuf & csf & M & [= <-]).
  split; [now apply (write_tail_dot M)|].
  exists cuf. now rewrite (matches_groupless M).
Qed.

Lemma slice_of_rest (text : str) (cu cu' : cursor) (l : str) :
  on_text text cu -> rest cu = l ++ rest cu' -> pos cu' = pos cu + length l ->
  slice text (pos cu) (pos cu') = l.
Proof.
  unfold on_text, slice. intros Ht Hr Hp. rewrite <- Ht, Hr, Hp.
  replace (pos cu + length l - pos cu) with (length l) by lia.
  apply firstn_length_app.
Qed.


Lemma table_then_tail (text : str) (n : string) (cu4 : cursor) (cs4 : captures)
  (res : cursor * captures) :
  on_text text cu4 ->
  exec (Seq (Group n TABLE_NAME_RE) WRITE_TAIL) done cu4 cs4 = Some res ->
  exists cuf b,
    res = (cuf, (n, (pos cu4, b)) :: cs4) /\ longest_table text (pos cu4) b.
Proof.
  intros Ht H. rewrite exec_seq, exec_group in H.
  unfold TABLE_NAME_RE in H. rewrite exec_alt, exec_seq in H.
  apply orelse_some in H as [H|[_ H]].
  - apply exec_sound in H as (cu5 & cs5 & M & H).
    destruct (matches_on_text M Ht) as [Ht5 _].
    apply word_t881_inv in M as (-> & x1 & x2 & x3 & x4 & Hr & Hp & Hl).
    apply opt_t_inv in H as [(x & cu6 & Ha & Hi & H)|[H Hno]].
    + apply write_tail_done in H as [_ [cuf ->]].
      apply advance_inv in Ha as (Hr6 & Hp6 & _).
      exists cuf, (pos cu6). split; [reflexivity|]. unfold longest_table.
      rewrite (@slice_of_rest text cu4 cu6 [x1; x2; x3; x4; x]);
        try assumption;
        [|rewrite Hr, Hr6; reflexivity|cbn [length]; lia].
      assert (E : lower [x1; x2; x3; x4; x] = lit "t881t").
      { change (lower [x1; x2; x3; x4] ++ [lower_char x] = lit "t881t").
        rewrite Hl, (ieq_lower _ _ Hi). reflexivity. }
      rewrite E. split; [discriminate|]. split; [simpl; auto|discriminate].
    + apply write_tail_done in H as [Hdot [cuf ->]].
      exists cuf, (pos cu5). split; [reflexivity|]. unfold longest_table.
      rewrite (@slice_of_rest text cu4 cu5 [x1; x2; x3; x4]);
        try assumption.
      rewrite Hl. split; [discriminate|]. split; [simpl; auto|].
      intros _ c Hc Hlow.
      apply nth_error_skipn_head in Hc as [tl Hc]. rewrite <- Ht5 in Hc.
      set (cu6 := mkCursor (S (pos cu5)) (Some c) tl).
      assert (Ha : advance cu5 = Some (c, cu6)).
      { unfold advance. now rewrite Hc. }
      assert (Hi : ieq "t" c = true).
      { unfold ieq. rewrite Hlow. reflexivity. }
      specialize (Hno c cu6 Ha Hi).
      apply (@write_tail_complete done cu6
               ((n, (pos cu4, pos cu6)) :: cs4)); [discriminate| |exact Hno].
      rewrite Hc in Hdot. destruct Hdot as [Hd|Hdot]; [|exact Hdot].
      rewrite Hd in Hlow. vm_compute in Hlow. discriminate Hlow.
  - apply exec_sound in H as (cu5 & cs5 & M & H).
    apply word_t882g_inv in M as (-> & x1 & x2 & x3 & x4 & x5 & Hr & Hp & Hl).
    apply write_tail_done in H as [_ [cuf ->]].
    exists cuf, (pos cu5). split; [reflexivity|]. unfold longest_table.
    rewrite (@slice_of_rest text cu4 cu5 [x1; x2; x3; x4; x5]);
      try assumption.
    rewrite Hl. split; [discriminate|]. split; [simpl; auto|discriminate].
Qed.

Ltac peel_exec H text :=
  let cu1 := fresh "cu" in
  let cs1 := fresh "cs" in
  let M := fresh "M" in
  let Ht1 := fresh "Ht" in
  let Hp := fresh "Hp" in
  eapply (@exec_seq_peel text) in H; [|eassumption];
  destruct H as (cu1 & cs1 & M & Ht1 & Hp & H).

Ltac peel_groupless H text :=
  peel_exec H text;
  match goal with
  | M : matches _ _ _ _ ?cs1 |- _ =>
      apply matches_groupless in M; [subst cs1|reflexivity]
  end.

Lemma write_stmt_inv (text : str) (cu : cursor) (res : cursor * captures) :
  on_text text cu ->
  exec WRITE_STMT_RE done cu [] = Some res ->
  exists a b,
    pos cu <= a /\ longest_table text a b
    /\ ((exists sp, snd res = [("table1"%string, (a, b)); ("1"%string, sp)])
        \/ snd res = [("table2"%string, (a, b))]).
Proof.
  intros Ht H. unfold WRITE_STMT_RE in H. rewrite exec_alt in H.
  apply orelse_some in H as [H|[_ H]]; cbv [seqs] in H.
  - peel_groupless H text.
    peel_exec H text.
    apply matches_group_inv in M as (s' & M & ->).
    apply matches_groupless in M; [subst s'|reflexivity].
    peel_groupless H text.
    peel_groupless H text.
    apply table_then_tail with (text := text) in H as (cuf & b & -> & Hl);
      [|assumption].
    eexists _, b. split; [|split; [exact Hl|left; eexists; reflexivity]]. lia.
  - peel_groupless H text.
    peel_groupless H text.
    peel_groupless H text.
    peel_groupless H text.
    peel_groupless H text.
    apply table_then_tail with (text := text) in H as (cuf & b & -> & Hl);
      [|assumption].
    eexists _, b. split; [|split; [exact Hl|right; reflexivity]]. lia.
Qed.

(** In the write class a reported table is a target table as the statement
    spells it, in any case, and it is [t881] only where no [t] follows:
    [t881t] is never reported as [t881].  Every match of [WRITE_STMT_RE]
    reports a table. *)
Theorem write_tables_longest (src : str) :
  Forall (fun m =>
            exists tb a b,
              write_table src m = Some tb
              /\ m_start m <= a
              /\ tb = lower (slice src a b)
              /\ In tb TARGET_TABLES
              /\ (tb = lit "t881" ->
                  forall c, nth_error src b = Some c ->
                            lower_char c <> "t"%char))
         (finditer WRITE_STMT_RE src).
Proof.
  apply Forall_forall. intros m Hm.
  apply finditer_match_at in Hm as (cu & Ht & Hm).
  unfold match_at in Hm.
  destruct (exec WRITE_STMT_RE _ cu []) as [[cu' cs]|] eqn:E; [|discriminate].
  injection Hm as <-.
  destruct (@write_stmt_inv src cu (cu', cs) Ht E)
    as (a & b & Ha & (Hne & Hin & Hlong) & Hg).
  exists (lower (slice src a b)), a, b.
  split; [|now repeat split].
  unfold write_table, group, py_or, truthy. cbn [m_groups snd] in *.
  destruct (slice src a b) as [|c t] eqn:Hsl; [now contradiction Hne|].
  destruct Hg as [[sp ->]| ->]; cbn [lookup_group String.eqb]; simpl;
    now rewrite Hsl.
Qed.

(* ------------------------------------------------------------------ *)
(** ** Order of the matches *)

Section Sorted_lists.
Variables A B : Type.
Variable RA : A -> A -> Prop.
Variable RB : B -> B -> Prop.


End Sorted_lists.

Lemma match_at_start (r : regex) (cu : cursor) (m : rmatch) :
  match_at r cu = Some m -> m_start m = pos cu.
Proof.
  unfold match_at.
  destruct (exec r _ cu []) as [[cu' cs]|]; [|discriminate].
  now intros [= <-].
Qed.

(** The matches of [finditer] come in strictly increasing order of their
    start offsets. *)
Lemma scan_sorted (r : regex) (s : str) :
  forall skip p pv,
    StronglySorted (fun a b => m_start a < m_start b) (scan r skip p pv s)
    /\ Forall (fun m => p + skip <= m_start m) (scan r skip p pv s).
Proof.
  induction s as [|c s IH]; intros skip p pv.
  - destruct skip; simpl; [|split; constructor].
    destruct (match_at r _) as [m|] eqn:Hm; [|split; constructor].
    apply match_at_start in Hm; simpl in Hm.
    split; repeat constructor. lia.
  - destruct skip as [|k]; simpl.
    + destruct (match_at r _) as [m|] eqn:Hm.
      * apply match_at_start in Hm; simpl in Hm.
        destruct (IH (m_end m - p - 1) (S p) (Some c)) as [Hs Hf].
        split; constructor; try assumption; try lia.
        -- eapply Forall_impl; [|exact Hf]. simpl; intros; lia.
        -- eapply Forall_impl; [|exact Hf]. simpl; intros; lia.
      * destruct (IH 0 (S p) (Some c)) as [Hs Hf].
        split; [assumption|].
        eapply Forall_impl; [|exact Hf]. simpl; intros; lia.
    + destruct (IH k (S p) (Some c)) as [Hs Hf].
      split; [assumption|].
      eapply Forall_impl; [|exact Hf]. simpl; intros; lia.
Qed.








(* ------------------------------------------------------------------ *)
(** ** The scanner never raises *)

Lemma str_eqb_eq (a b : str) : str_eqb a b = true <-> a = b.
Proof.
  revert b. induction a as [|x a IH]; intros [|y b]; simpl.
  - split; reflexivity.
  - split; discriminate.
  - split; discriminate.
  - rewrite andb_true_iff, Ascii.eqb_eq, IH.
    split; [intros [-> ->]; reflexivity|intros [= -> ->]; auto].
Qed.

Lemma in_targets_cases (tb : str) :
  in_targets (Some tb) = true ->
  tb = lit "t881" \/ tb = lit "t881t" \/ tb = lit "t882g".
Proof.
  unfold in_targets, TARGET_TABLES. cbn [existsb].
  rewrite !orb_true_iff, !str_eqb_eq.
  intros [H|[H|[H|H]]]; auto. discriminate.
Qed.

Lemma in_targets_In (tb : str) :
  in_targets (Some tb) = true -> In tb TARGET_TABLES.
Proof.
  intros H. apply in_targets_cases in H as [-> | [-> | ->]]; simpl; auto.
Qed.

(** On a target table neither lookup of [METHOD_MAP] raises [KeyError]. *)
Lemma read_finding_total (u : Unit.t) (raw src : str) (p : read_pass)
  (s0 s1 : nat) (tb : str) :
  in_targets (Some tb) = true ->
  exists f, read_finding u raw src p s0 s1 tb = Ok f.
Proof.
  intros H. unfold read_finding, read_message, suggestion_for_read.
  apply in_targets_cases in H as [-> | [-> | ->]];
    destruct p; cbn [METHOD_MAP dict_get METHOD_MAP_items bind];
    eexists; reflexivity.
Qed.

Lemma find_tables_in_select_targets (stmt tb : str) (a b : nat) :
  In (tb, a, b) (find_tables_in_select stmt) -> in_targets (Some tb) = true.
Proof.
  unfold find_tables_in_select. intros Hin.
  apply in_flat_map in Hin as [m [_ Hin]]. cbv zeta in Hin.
  destruct (canon _) as [t|]; [|contradiction].
  destruct (in_targets (Some t)) eqn:Ht; [|contradiction].
  destruct Hin as [[= <- _ _]|[]]. exact Ht.
Qed.

Section Loops.
Variables A B H : Type.
Variable R : H -> B -> Prop.

(** A loop whose body appends to the accumulator appends, in order, what
    its iterations append. *)
Lemma for_flat_rel (body : A -> list B -> res (list B)) (g : A -> list H)
  (xs : list A) :
  (forall x, In x xs ->
     exists ys, Forall2 R (g x) ys /\ forall acc, body x acc = Ok (acc ++ ys)) ->
  exists ys, Forall2 R (flat_map g xs) ys
             /\ forall acc, for_ xs acc body = Ok (acc ++ ys).
Proof.
  induction xs as [|x xs IH]; intros Hb; simpl.
  - exists []. split; [constructor|]. intros; now rewrite app_nil_r.
  - destruct (Hb x) as [ys [Hys Hx]]; [now left|].
    destruct IH as [zs [Hzs Hxs]]; [intros; apply Hb; now right|].
    exists (ys ++ zs). split; [now apply Forall2_app|].
    intros acc. rewrite Hx. simpl. rewrite Hxs. now rewrite app_assoc.
Qed.
End Loops.

Lemma map_as_flat_map (A B : Type) (f : A -> B) (l : list A) :
  map f l = flat_map (fun x => [f x]) l.
Proof. induction l as [|x l IH]; simpl; [reflexivity|now rewrite IH]. Qed.


Lemma read_loop_closed (u : Unit.t) (raw src : str) (p : read_pass)
  (re : regex) :
  exists fs, Forall2 (built u raw src) (read_hits p re src) fs
             /\ forall acc, read_loop u raw src p re acc = Ok (acc ++ fs).
Proof.
  unfold read_loop, read_hits.
  apply for_flat_rel. intros m _. cbv zeta.
  rewrite map_as_flat_map.
  apply for_flat_rel. intros [[tb ts] te] Hin.
  apply find_tables_in_select_targets in Hin.
  destruct (@read_finding_total u raw src p (m_start m) (m_end m) tb Hin)
    as [f Hf].
  exists [f]. split.
  - repeat constructor. exact Hf.
  - intros acc. now rewrite Hf.
Qed.

Lemma write_loop_closed (u : Unit.t) (raw src : str) :
  exists fs, Forall2 (built u raw src) (write_hits src) fs
             /\ forall acc, write_loop u raw src acc = Ok (acc ++ fs).
Proof.
  unfold write_loop, write_hits.
  apply for_flat_rel. intros m _. cbv zeta.
  destruct (truthy _ && in_targets _).
  - destruct (write_table src m) as [t|].
    + eexists. split; [|reflexivity]. repeat constructor.
    + exists []. split; [constructor|]. intros; now rewrite app_nil_r.
  - exists []. split; [constructor|]. intros; now rewrite app_nil_r.
Qed.

(** [scan_unit] returns the unit together with one finding per hit, in the
    order of the hits. *)
Lemma scan_unit_closed (u : Unit.t) :
  exists fs,
    scan_unit u = Ok (mkResult u fs)
    /\ Forall2 (built u (code_or_empty u) (sanitized (code_or_empty u)))
         (hits (sanitized (code_or_empty u))) fs.
Proof.
  unfold scan_unit. rewrite rm_strings_and_comments_closed. cbn [bind].
  set (raw := code_or_empty u). set (src := sanitized raw).
  destruct (read_loop_closed u raw src ReadQuery STMT_SELECT_RE)
    as [f1 [H1 E1]].
  destruct (read_loop_closed u raw src ReadCursor STMT_OPEN_CURSOR_RE)
    as [f2 [H2 E2]].
  destruct (write_loop_closed u raw src) as [f3 [H3 E3]].
  exists (f1 ++ f2 ++ f3). split.
  - rewrite E1. cbn [bind app]. rewrite E2. cbn [bind]. rewrite E3.
    cbn [bind]. now rewrite <- app_assoc.
  - unfold hits. repeat apply Forall2_app; assumption.
Qed.

(* ------------------------------------------------------------------ *)
(** ** What the sanitizer leaves of the text *)


Lemma repeat_blank (l : str) : Forall2 kept_or_blank l (repeat SPACE (length l)).
Proof. induction l; simpl; constructor; [now right|assumption]. Qed.

Lemma blank_chars_pointwise (b : bool) (l : str) :
  Forall2 kept_or_blank l (blank_chars b l).
Proof.
  functional induction (blank_chars b l);
    try apply repeat_blank;
    repeat (apply Forall2_cons;
            [first [now left | now right
                   | destruct in_str; [now right | now left]]|]);
    first [assumption | constructor].
Qed.

Lemma blank_line_pointwise (ln : str) : Forall2 kept_or_blank ln (blank_line ln).
Proof.
  unfold blank_line. destruct (startswith ln [STAR]).
  - apply repeat_blank.
  - apply blank_chars_pointwise.
Qed.

Lemma sanitized_pointwise (src : str) : Forall2 kept_or_blank src (sanitized src).
Proof.
  unfold sanitized. rewrite <- (splitlines_concat src) at 1.
  induction (splitlines src) as [|ln lns IH]; simpl; [constructor|].
  apply Forall2_app; [apply blank_line_pointwise|exact IH].
Qed.

Lemma Forall2_skipn (A B : Type) (P : A -> B -> Prop) (n : nat) :
  forall l1 l2, Forall2 P l1 l2 -> Forall2 P (skipn n l1) (skipn n l2).
Proof.
  induction n as [|n IH]; intros l1 l2 H; [exact H|].
  destruct H; simpl; [constructor|now apply IH].
Qed.

Lemma lower_char_space : lower_char SPACE = SPACE.
Proof. reflexivity. Qed.

(** A mention that survives sanitization is a mention of the raw text, none
    of whose characters was changed. *)
Lemma mention_kept (name : str) :
  ~ In SPACE name ->
  forall r s,
    Forall2 kept_or_blank r s ->
    startswith (lower s) name = true ->
    startswith (lower r) name = true
    /\ forall j, j < length name -> nth_error s j = nth_error r j.
Proof.
  induction name as [|n name IH]; intros Hn r s Hrs Hs.
  - split; [reflexivity|]. simpl; intros; lia.
  - destruct Hrs as [|y x r s Hyx Hrs]; [discriminate|].
    simpl in Hs. apply andb_true_iff in Hs as [Hx Hs].
    apply Ascii.eqb_eq in Hx.
    assert (x = y) as ->.
    { destruct Hyx as [->| ->]; [reflexivity|].
      exfalso. apply Hn. left. rewrite <- Hx. apply lower_char_space. }
    destruct (IH (fun H => Hn (or_intror H)) r s Hrs Hs) as [Hr Hj].
    split.
    + simpl. rewrite Hr, andb_true_r. now apply Ascii.eqb_eq.
    + intros [|j] Hlt; [reflexivity|]. simpl. apply Hj. simpl in Hlt. lia.
Qed.

Lemma startswith_refl (l : str) : startswith l l = true.
Proof.
  induction l as [|c l IH]; simpl; [reflexivity|].
  rewrite IH, andb_true_r. now apply Ascii.eqb_eq.
Qed.

Lemma startswith_firstn (name : str) :
  forall k l, startswith (firstn k l) name = true -> startswith l name = true.
Proof.
  induction name as [|n name IH]; intros k l H; [reflexivity|].
  destruct k, l; simpl in H; try discriminate.
  apply andb_true_iff in H as [Hc H]. simpl.
  rewrite Hc. simpl. now apply (IH k).
Qed.

Lemma startswith_nonempty (l name : str) :
  name <> [] -> startswith l name = true -> l <> [].
Proof. destruct name, l; simpl; congruence. Qed.

Lemma mention_slice (name text : str) (a b o : nat) :
  mention_at name (slice text a b) o = true ->
  mention_at name text (o + a) = true.
Proof.
  unfold mention_at, slice, lower.
  rewrite skipn_firstn_comm, skipn_skipn, <- firstn_map.
  apply startswith_firstn.
Qed.

Lemma in_targets_mention (text : str) (a b : nat) :
  in_targets (canon (Some (slice text a b))) = true ->
  exists name, In name TARGET_TABLES /\ mention_at name text a = true.
Proof.
  unfold canon. destruct (slice text a b) as [|c t] eqn:Hsl; [discriminate|].
  intros H. exists (lower (c :: t)). split; [now apply in_targets_In|].
  unfold mention_at. rewrite <- Hsl. unfold slice, lower.
  rewrite <- firstn_map.
  apply (startswith_firstn _ (b - a)). apply startswith_refl.
Qed.


Lemma no_mention_slice (text : str) (a b : nat) :
  no_mention text -> no_mention (slice text a b).
Proof.
  intros H name o Hin.
  destruct (mention_at name (slice text a b) o) eqn:E; [|reflexivity].
  apply mention_slice in E. now rewrite H in E.
Qed.

Lemma group_no_targets (text : str) (m : rmatch) (g : string) :
  no_mention text -> in_targets (canon (group text m g)) = false.
Proof.
  intros H. unfold group.
  destruct (lookup_group g (m_groups m)) as [[a b]|]; [|reflexivity].
  destruct (in_targets _) eqn:E; [|reflexivity].
  apply in_targets_mention in E as [name [Hin E]]. now rewrite H in E.
Qed.

Lemma flat_map_nil (A B : Type) (f : A -> list B) (l : list A) :
  (forall x, f x = []) -> flat_map f l = [].
Proof.
  intros H. induction l as [|x l IH]; simpl; [reflexivity|].
  now rewrite H, IH.
Qed.

Lemma find_tables_in_select_none (stmt : str) :
  no_mention stmt -> find_tables_in_select stmt = [].
Proof.
  intros H. unfold find_tables_in_select. apply flat_map_nil. intros m.
  cbv zeta. rewrite (group_no_targets m "table" H).
  now destruct (canon _).
Qed.

(** Without a mention of a target table in the sanitized text there is
    nothing to report. *)
Lemma hits_none (src : str) : no_mention src -> hits src = [].
Proof.
  intros H. unfold hits, read_hits, write_hits.
  rewrite !flat_map_nil; try reflexivity.
  - intros m. cbv zeta. unfold write_table, py_or.
    destruct (truthy (group src m "table1"));
      rewrite (group_no_targets m _ H); now rewrite andb_false_r.
  - intros m. rewrite find_tables_in_select_none; [reflexivity|].
    now apply no_mention_slice.
  - intros m. rewrite find_tables_in_select_none; [reflexivity|].
    now apply no_mention_slice.
Qed.

Lemma targets_no_space (name : str) : In name TARGET_TABLES -> ~ In SPACE name.
Proof.
  intros [<-|[<-|[<-|[]]]] H; simpl in H;
    repeat (destruct H as [H|H]; [discriminate|]); exact H.
Qed.

Lemma targets_nonempty (name : str) : In name TARGET_TABLES -> name <> [].
Proof. intros [<-|[<-|[<-|[]]]]; discriminate. Qed.

(* ------------------------------------------------------------------ *)
(** ** One line sanitized twice *)

Lemma blank_chars_spaces (n : nat) :
  blank_chars false (repeat SPACE n) = repeat SPACE n.
Proof.
  induction n as [|n IH]; [reflexivity|].
  cbn [repeat]. rewrite blank_chars_equation.
  change (Ascii.eqb SPACE QUOTE) with false.
  change (Ascii.eqb SPACE DQUOTE && negb false) with false.
  cbv iota. now rewrite IH.
Qed.

(** Outside a string literal the first character of a sanitized line is a
    quote only if it was one. *)
Lemma blank_chars_head (c d : ascii) (tl r : str) :
  blank_chars false (c :: tl) = d :: r -> d = c \/ d = SPACE.
Proof.
  intros H.
  pose proof (blank_chars_pointwise false (c :: tl)) as P.
  rewrite H in P. inversion P; subst. assumption.
Qed.

Lemma blank_chars_idem (b : bool) (l : str) :
  blank_chars b (blank_chars b l) = blank_chars b l.
Proof.
  functional induction (blank_chars b l).
  - reflexivity.
  - rewrite blank_chars_equation, e0, e3. now rewrite IHs.
  - rewrite blank_chars_equation, e0.
    destruct (blank_chars false (nx :: tl')) as [|d r] eqn:E.
    + reflexivity.
    + assert (Hd : Ascii.eqb d QUOTE = false).
      { apply blank_chars_head in E as [->| ->]; [exact e3|reflexivity]. }
      rewrite Hd. now rewrite IHs.
  - simpl. now rewrite e0.
  - rewrite blank_chars_equation, e0. now rewrite IHs.
  - apply andb_true_iff in e1 as [_ e1]. apply negb_true_iff in e1.
    rewrite e1. apply blank_chars_spaces.
  - rewrite blank_chars_equation.
    change (Ascii.eqb SPACE QUOTE) with false.
    change (Ascii.eqb SPACE DQUOTE && negb true) with false.
    cbv iota. now rewrite IHs.
  - rewrite blank_chars_equation, e0, e1. now rewrite IHs.
Qed.

Lemma startswith_star_spaces (n : nat) : startswith (repeat SPACE n) [STAR] = false.
Proof. destruct n; reflexivity. Qed.

Lemma blank_line_idem (ln : str) : blank_line (blank_line ln) = blank_line ln.
Proof.
  unfold blank_line at 2 3. destruct (startswith ln [STAR]) eqn:E.
  - unfold blank_line. rewrite startswith_star_spaces. apply blank_chars_spaces.
  - unfold blank_line.
    replace (startswith (blank_chars false ln) [STAR]) with false;
      [apply blank_chars_idem|].
    symmetry. destruct ln as [|c tl]; [reflexivity|].
    destruct (blank_chars false (c :: tl)) as [|d r] eqn:B; [reflexivity|].
    apply blank_chars_head in B as [->| ->]; [exact E|reflexivity].
Qed.

(** A text without line boundary is one line. *)
Lemma splitlines_from_one_line (s : str) :
  forallb (fun c => negb (is_linebreak c)) s = true ->
  forall cur,
    splitlines_from cur s
    = match rev cur ++ s with [] => [] | _ :: _ => [rev cur ++ s] end.
Proof.
  induction s as [|c s IH]; intros H cur.
  - rewrite splitlines_from_equation, app_nil_r.
    destruct cur as [|x cur]; [reflexivity|].
    destruct (rev (x :: cur)) eqn:E; [|reflexivity].
    apply (f_equal (@length ascii)) in E. rewrite length_rev in E. discriminate.
  - cbn [forallb] in H. apply andb_true_iff in H as [Hc H].
    apply negb_true_iff in Hc.
    rewrite splitlines_from_equation.
    assert (Hcr : Ascii.eqb c CR = false).
    { destruct (Ascii.eqb c CR) eqn:E; [|reflexivity].
      apply Ascii.eqb_eq in E. subst c. discriminate Hc. }
    rewrite Hcr, Hc, (IH H). cbn [rev]. rewrite <- app_assoc. cbn [app].
    destruct (rev cur ++ c :: s) eqn:E; [|reflexivity].
    now destruct (rev cur).
Qed.

Lemma kept_or_blank_no_linebreak (x y : str) :
  Forall2 kept_or_blank x y ->
  forallb (fun c => negb (is_linebreak c)) x = true ->
  forallb (fun c => negb (is_linebreak c)) y = true.
Proof.
  induction 1 as [|a b x y Hab _ IH]; intros H; [reflexivity|].
  cbn [forallb] in *. apply andb_true_iff in H as [Ha H].
  rewrite (IH H), andb_true_r. now destruct Hab as [->| ->].
Qed.

Lemma sanitized_one_line (x : str) :
  forallb (fun c => negb (is_linebreak c)) x = true ->
  sanitized x = blank_line x.
Proof.
  intros H. unfold sanitized, splitlines.
  rewrite (splitlines_from_one_line x H []). cbn [rev app].
  destruct x; [reflexivity|]. cbn [map concat]. apply app_nil_r.
Qed.

(** The newline offsets of the sanitized text are newline offsets of the
    raw text: no newline is created. *)
Lemma newline_offsets_kept (x y : str) :
  Forall2 kept_or_blank x y ->
  forall p, incl (newline_offsets_from p y) (newline_offsets_from p x).
Proof.
  induction 1 as [|a b x y Hab _ IH]; intros p o Ho; [exact Ho|].
  cbn [newline_offsets_from] in *.
  destruct Hab as [->| ->].
  - destruct (Ascii.eqb a LF); [|now apply IH].
    destruct Ho as [<-|Ho]; [now left|right; now apply IH].
  - change (Ascii.eqb SPACE LF) with false in Ho. cbv iota in Ho.
    destruct (Ascii.eqb a LF); [right|]; now apply IH.
Qed.

(* ------------------------------------------------------------------ *)
(** ** Any spelling of a target table *)

Ltac all_chars_imp x :=
  destruct x as [[] [] [] [] [] [] [] []]; vm_compute;
  first [discriminate | intros; discriminate | intros; auto].

Lemma lower_is_t (c : ascii) : lower_char c = "t"%char -> c = "t"%char \/ c = "T"%char.
Proof. all_chars_imp c. Qed.

Lemma lower_is_g (c : ascii) : lower_char c = "g"%char -> c = "g"%char \/ c = "G"%char.
Proof. all_chars_imp c. Qed.

Lemma lower_is_1 (c : ascii) : lower_char c = "1"%char -> c = "1"%char.
Proof. all_chars_imp c. Qed.

Lemma lower_is_2 (c : ascii) : lower_char c = "2"%char -> c = "2"%char.
Proof. all_chars_imp c. Qed.

Lemma lower_is_8 (c : ascii) : lower_char c = "8"%char -> c = "8"%char.
Proof. all_chars_imp c. Qed.

Ltac spell :=
  repeat match goal with
  | H : lower_char _ = "t"%char |- _ => apply lower_is_t in H as [H|H]
  | H : lower_char _ = "g"%char |- _ => apply lower_is_g in H as [H|H]
  | H : lower_char _ = "1"%char |- _ => apply lower_is_1 in H
  | H : lower_char _ = "2"%char |- _ => apply lower_is_2 in H
  | H : lower_char _ = "8"%char |- _ => apply lower_is_8 in H
  end.

(** The spellings of the target tables: every text that lower-cases to
    one of them. *)
Lemma target_spellings (v : str) :
  In (lower v) TARGET_TABLES ->
  In v [lit "t881"; lit "T881";
        lit "t881t"; lit "t881T"; lit "T881t"; lit "T881T";
        lit "t882g"; lit "t882G"; lit "T882g"; lit "T882G"].
Proof.
  intros [H|[H|[H|[]]]];
    destruct v as [|c1 [|c2 [|c3 [|c4 [|c5 [|c6 v]]]]]]; try discriminate H;
    symmetry in H; cbn [lower map] in H; injection H; intros;
    spell; subst; simpl; tauto.
Qed.

(* ------------------------------------------------------------------ *)
(** ** Properties of the specification *)

(** C1: evaluation at the failing inputs.  The sanitizer keeps the length
    of the text but blanks the line terminator of a full-line comment, of
    a line with an inline comment and of a line that ends inside a string
    literal, so the newline offsets are not kept. *)
Theorem C1_newline_blanked :
  (rm_strings_and_comments (lit "* c" ++ NL) = Ok (lit "    ")
   /\ newline_offsets (lit "* c" ++ NL) = [3]
   /\ newline_offsets (lit "    ") = [])
  /\ (rm_strings_and_comments (lit "x." ++ [DQUOTE] ++ lit "c" ++ NL ++ lit "y.")
      = Ok (lit "x.   y.")
      /\ newline_offsets (lit "x." ++ [DQUOTE] ++ lit "c" ++ NL ++ lit "y.") = [4]
      /\ newline_offsets (lit "x.   y.") = [])
  /\ (rm_strings_and_comments (lit "x = 'a" ++ NL ++ lit "y.")
      = Ok (lit "x = '  y.")
      /\ newline_offsets (lit "x = 'a" ++ NL ++ lit "y.") = [6]
      /\ newline_offsets (lit "x = '  y.") = []).
Proof.
  split; [|split]; (split; [|split]); vm_compute; reflexivity.
Qed.

(** C2: evaluation at the failing input.  The SELECT stands on line 2 of
    the raw text, one newline before its start offset 4, and the finding
    carries line 1: the line is counted in the sanitized text, where the
    newline of the comment line is blanked. *)
Theorem C2_line_counted_in_sanitized_text (meta : Unit.t) :
  let raw := lit "* c" ++ NL ++ lit "SELECT * FROM t881." in
  let u := unit_with meta (Some raw) in
  exists f,
    scan_unit u = Ok (mkResult u [f])
    /\ hits (sanitized raw) = [mkHit (Read ReadQuery) 4 23 (lit "t881") 9]
    /\ Finding.line f = 1
    /\ line_of_offset raw 4 = 2.
Proof.
  intros raw u. subst u raw.
  run_scan (unit_with meta (Some (lit "* c" ++ NL ++ lit "SELECT * FROM t881."))).
  eexists. split; [eassumption|].
  split; [|split]; vm_compute; reflexivity.
Qed.

(** C3: evaluation at the failing input.  A line that ends inside a string
    literal loses its terminator, so in a second pass the next line is read
    as part of the literal and blanked. *)
Theorem C3_second_pass_differs :
  rm_strings_and_comments (lit "'" ++ NL ++ lit "a") = Ok (lit "' a")
  /\ rm_strings_and_comments (lit "' a") = Ok (lit "'  ")
  /\ lit "' a" <> lit "'  ".
Proof.
  split; [|split]; [vm_compute; reflexivity..|].
  vm_compute. discriminate.
Qed.

(** C4: evaluation at the failing input.  The text is one physical line
    that starts with the full-line-comment marker, so its only mention of
    a target table lies in a comment; [str.splitlines] ends the line at
    the form feed, the sanitizer keeps what follows it, and [scan_unit]
    reports a direct read on line 1.  The two inputs that the claim names
    give no finding. *)
Theorem C4_form_feed_ends_comment_line (meta : Unit.t) :
  let raw := lit "* c" ++ [FF] ++ lit "SELECT * FROM t881." in
  let u := unit_with meta (Some raw) in
  let u1 := unit_with meta (Some (lit "* SELECT * FROM t881.")) in
  let u2 := unit_with meta (Some (lit "... VALUE 'SELECT FROM T881'.")) in
  (physical_lines raw = [raw]
   /\ startswith raw [STAR] = true
   /\ mentioned_only_in_literals_or_comments raw = true
   /\ splitlines raw = [lit "* c" ++ [FF]; lit "SELECT * FROM t881."]
   /\ rm_strings_and_comments raw
      = Ok (lit "    " ++ lit "SELECT * FROM t881.")
   /\ exists f,
        scan_unit u = Ok (mkResult u [f])
        /\ Finding.issue_type f = lit "DirectRead"
        /\ Finding.line f = 1)
  /\ scan_unit u1 = Ok (mkResult u1 [])
  /\ scan_unit u2 = Ok (mkResult u2 []).
Proof.
  cbv zeta. split; [|split; vm_compute; reflexivity].
  do 5 (split; [vm_compute; reflexivity|]).
  run_scan (unit_with meta
              (Some (lit "* c" ++ [FF] ++ lit "SELECT * FROM t881."))).
  eexists. split; [eassumption|].
  split; vm_compute; reflexivity.
Qed.

(** C5: evaluation at the failing input.  The SELECT stands on line 3 of
    the unit, after a full-line comment and an empty line, and the one
    finding carries line 2: the newline of the comment line is blanked
    before the lines are counted.  After two lines without comment or
    literal the finding carries line 3. *)
Theorem C5_line_3_reported_as_line_2 (meta : Unit.t) :
  let raw := on_line_3 (lit "* c") [] in
  read_reported_on_line 2 (unit_with meta (Some raw))
  /\ hits (sanitized raw) = [mkHit (Read ReadQuery) 5 43 (lit "t881") 9]
  /\ line_of_offset raw 5 = 3
  /\ read_detected_on_line_3
       (unit_with meta
          (Some (on_line_3 (lit "REPORT zdemo.")
                           (lit "DATA lt_t881 TYPE TABLE OF t881.")))).
Proof.
  cbv zeta. split; [|split; [|split]].
  - unfold read_reported_on_line.
    run_scan (unit_with meta (Some (on_line_3 (lit "* c") []))).
    eexists. split; [eassumption|].
    do 3 (split; [vm_compute; reflexivity|]). vm_compute; reflexivity.
  - vm_compute; reflexivity.
  - vm_compute; reflexivity.
  - unfold read_detected_on_line_3.
    run_scan (unit_with meta
          (Some (on_line_3 (lit "REPORT zdemo.")
                           (lit "DATA lt_t881 TYPE TABLE OF t881.")))).
    eexists. split; [eassumption|].
    do 7 (split; [vm_compute; reflexivity|]). vm_compute; reflexivity.
Qed.

(** C6: the DELETE statement gives exactly one finding, a disallowed write
    with severity warning. *)
Theorem C6_write_detection (meta : Unit.t) :
  let u := unit_with meta (Some (lit "DELETE FROM t882g WHERE bukrs = lv_bukrs.")) in
  exists f,
    scan_unit u = Ok (mkResult u [f])
    /\ Finding.issue_type f = lit "DisallowedWrite"
    /\ Finding.severity f = lit "warning"
    /\ Finding.line f = 1
    /\ Finding.suggestion f = suggestion_for_write (lit "t882g").
Proof.
  intros u. subst u.
  run_scan (unit_with meta (Some (lit "DELETE FROM t882g WHERE bukrs = lv_bukrs."))).
  eexists. split; [eassumption|].
  do 3 (split; [vm_compute; reflexivity|]). vm_compute; reflexivity.
Qed.

(** C7: evaluation at the failing input.  [WRITE_STMT_RE] has no word
    boundary after the table name: a write to the table [t881x] is
    reported as a write to T881, while [FROM_OR_JOIN_TARGET_RE] rejects
    the same name in a SELECT. *)
Theorem C7_write_pattern_not_anchored (meta : Unit.t) :
  let u := unit_with meta (Some (lit "UPDATE t881x SET a = 1.")) in
  (exists f,
     scan_unit u = Ok (mkResult u [f])
     /\ Finding.issue_type f = lit "DisallowedWrite"
     /\ Finding.message f
        = lit "Disallowed write to T881 detected. Avoid DML on obsolete tables.")
  /\ write_hits (lit "UPDATE t881x SET a = 1.")
     = [mkHit WriteDML 0 23 (lit "t881") 0]
  /\ write_hits (lit "DELETE FROM T8810 WHERE a = 1.")
     = [mkHit WriteDML 0 30 (lit "t881") 0]
  /\ find_tables_in_select (lit "SELECT * FROM t881x.") = [].
Proof.
  intros u. subst u.
  run_scan (unit_with meta (Some (lit "UPDATE t881x SET a = 1."))).
  split; [eexists; split; [eassumption|split]|split; [|split]];
    vm_compute; reflexivity.
Qed.


(** C9: [scan_unit] returns, for every unit, the unit and a list of
    findings; no exception is raised.  An unterminated string and a
    statement without terminator give an empty list. *)
Theorem C9_scan_unit_total :
  (forall x : str, exists y, rm_strings_and_comments x = Ok y)
  /\ (forall u : Unit.t, exists fs, scan_unit u = Ok (mkResult u fs))
  /\ (forall meta : Unit.t,
         let u1 := unit_with meta None in
         let u2 := unit_with meta (Some []) in
         let u3 := unit_with meta (Some (lit "SELECT * FROM t881")) in
         let u4 := unit_with meta (Some (lit "x = 'SELECT * FROM t881.")) in
         scan_unit u1 = Ok (mkResult u1 [])
         /\ scan_unit u2 = Ok (mkResult u2 [])
         /\ scan_unit u3 = Ok (mkResult u3 [])
         /\ scan_unit u4 = Ok (mkResult u4 [])).
Proof.
  split; [|split].
  - intros x. eexists. apply rm_strings_and_comments_closed.
  - intros u. destruct (scan_unit_closed u) as [fs [E _]]. now exists fs.
  - intros meta. cbv zeta.
    do 3 (split; [vm_compute; reflexivity|]). vm_compute; reflexivity.
Qed.

Lemma scan_rule_array_closed (units : list Unit.t) :
  exists all,
    Forall2 (fun u r => scan_unit u = Ok r) units all
    /\ forall acc,
        for_ units acc (fun u results =>
          r <- scan_unit u ;;
          match rule628_findings r with
          | _ :: _ => Ok (results ++ [r])
          | [] => Ok results
          end)
        = Ok (acc ++ filter has_findings all).
Proof.
  induction units as [|u units [all [Hall IH]]].
  - exists []. split; [constructor|]. intros; simpl. now rewrite app_nil_r.
  - destruct (scan_unit_closed u) as [fs [E _]].
    exists (mkResult u fs :: all). split; [now constructor|].
    intros acc. cbn [for_ filter]. rewrite E. cbn [bind rule628_findings].
    unfold has_findings at 1. cbn [rule628_findings].
    destruct fs as [|f fs']; cbn [bind]; rewrite IH; [reflexivity|].
    now rewrite <- app_assoc.
Qed.

(** C10: the batch interface returns the results of exactly the units with
    a finding, in input order; the single-unit interface returns the
    result of [scan_unit], also when it has no finding. *)
Theorem C10_batch_omits_units_without_findings :
  (forall units : list Unit.t,
      exists all,
        Forall2 (fun u r => scan_unit u = Ok r) units all
        /\ scan_rule_array units = Ok (filter has_findings all))
  /\ (forall u : Unit.t,
         scan_rule_single u = scan_unit u
         /\ exists fs, scan_rule_single u = Ok (mkResult u fs))
  /\ (forall meta : Unit.t,
         let u := unit_with meta (Some (lit "WRITE 'no table'.")) in
         scan_rule_single u = Ok (mkResult u [])
         /\ scan_rule_array [u] = Ok []).
Proof.
  split; [|split].
  - intros units. destruct (scan_rule_array_closed units) as [all [Hall E]].
    exists all. split; [assumption|]. apply (E []).
  - intros u. split; [reflexivity|].
    destruct (scan_unit_closed u) as [fs [E _]]. now exists fs.
  - intros meta. split; vm_compute; reflexivity.
Qed.

(* ------------------------------------------------------------------ *)
(** ** Further properties *)

(** The sanitizer never raises and substitutes in place: the result has
    the length of the text, each of its characters is the character of
    the text at the same offset or a space, and each of its newlines is a
    newline of the text. *)
Theorem sanitizer_substitutes_in_place (x : str) :
  exists y,
    rm_strings_and_comments x = Ok y
    /\ length y = length x
    /\ Forall2 kept_or_blank x y
    /\ incl (newline_offsets y) (newline_offsets x).
Proof.
  exists (sanitized x).
  split; [apply rm_strings_and_comments_closed|].
  split; [apply sanitized_length|].
  split; [apply sanitized_pointwise|].
  apply newline_offsets_kept, sanitized_pointwise.
Qed.

(** A sanitized line is left as it is by the sanitizer. *)
Theorem sanitize_line_idempotent (ln : str) :
  exists s, sanitize_line ln = Ok s /\ sanitize_line s = Ok s.
Proof.
  exists (blank_line ln). rewrite !sanitize_line_closed.
  split; [reflexivity|]. now rewrite blank_line_idem.
Qed.

(** On a text without line boundary the sanitizer is idempotent. *)
Theorem one_line_idempotent (x : str) :
  forallb (fun c => negb (is_linebreak c)) x = true ->
  exists y, rm_strings_and_comments x = Ok y
            /\ rm_strings_and_comments y = Ok y.
Proof.
  intros H. exists (blank_line x).
  rewrite !rm_strings_and_comments_closed.
  rewrite (sanitized_one_line x H). split; [reflexivity|].
  rewrite sanitized_one_line, blank_line_idem; [reflexivity|].
  apply (kept_or_blank_no_linebreak (blank_line_pointwise x) H).
Qed.

Lemma one_line_idempotent_example :
  let x := lit "x = 'it''s' y. " ++ [DQUOTE] ++ lit " SELECT 'a" in
  forallb (fun c => negb (is_linebreak c)) x = true
  /\ exists y, rm_strings_and_comments x = Ok y
               /\ rm_strings_and_comments y = Ok y.
Proof.
  cbv zeta. split; [vm_compute; reflexivity|].
  apply one_line_idempotent. vm_compute; reflexivity.
Defined.

(** Matching is case-insensitive: every spelling of a target table is
    reported, under its lower-case name, in a SELECT and in an UPDATE. *)
Theorem any_spelling_matches (v : str) :
  In (lower v) TARGET_TABLES ->
  find_tables_in_select (lit "SELECT * FROM " ++ v ++ lit ".")
  = [(lower v, 9, 14 + length v)]
  /\ write_hits (lit "UPDATE " ++ v ++ lit " SET a = 1.")
     = [mkHit WriteDML 0 (18 + length v) (lower v) 0].
Proof.
  intros H. apply target_spellings in H.
  repeat (destruct H as [<-|H]; [split; vm_compute; reflexivity|]).
  contradiction.
Qed.

Lemma any_spelling_matches_example :
  In (lower (lit "T881t")) TARGET_TABLES
  /\ find_tables_in_select (lit "SELECT * FROM " ++ lit "T881t" ++ lit ".")
     = [(lower (lit "T881t"), 9, 14 + length (lit "T881t"))]
  /\ write_hits (lit "UPDATE " ++ lit "T881t" ++ lit " SET a = 1.")
     = [mkHit WriteDML 0 (18 + length (lit "T881t")) (lower (lit "T881t")) 0].
Proof.
  split; [vm_compute; auto|].
  apply any_spelling_matches. vm_compute; auto.
Defined.


(* ------------------------------------------------------------------ *)
(** ** Snippets and line numbers *)

Lemma escape_newlines_app (a b : str) :
  escape_newlines (a ++ b) = escape_newlines a ++ escape_newlines b.
Proof. unfold escape_newlines. apply flat_map_app. Qed.

Lemma escape_newlines_no_newline (l : str) : ~ In LF (escape_newlines l).
Proof.
  induction l as [|c l IH]; simpl; [tauto|].
  destruct (Ascii.eqb c LF) eqn:E; simpl.
  - intros [H|[H|H]]; [discriminate H|discriminate H|exact (IH H)].
  - intros [H|H]; [|exact (IH H)].
    subst c. discriminate E.
Qed.

Lemma escape_newlines_length (l : str) :
  length l <= length (escape_newlines l) <= 2 * length l.
Proof.
  induction l as [|c l IH]; simpl; [lia|].
  destruct (Ascii.eqb c LF); simpl; lia.
Qed.

Lemma slice_length (t : str) (a b : nat) : length (slice t a b) <= b - a.
Proof. unfold slice. rewrite length_firstn. lia. Qed.

Lemma firstn_plus (A : Type) (l : list A) (a d : nat) :
  firstn (a + d) l = firstn a l ++ firstn d (skipn a l).
Proof.
  revert l. induction a as [|a IH]; intros [|x l]; simpl;
    try reflexivity.
  - now rewrite firstn_nil.
  - now rewrite IH.
Qed.

Lemma slice_split (t : str) (a m b : nat) :
  a <= m -> m <= b -> slice t a b = slice t a m ++ slice t m b.
Proof.
  intros Ha Hb. unfold slice.
  replace (b - a) with ((m - a) + (b - m)) by lia.
  rewrite firstn_plus, skipn_skipn.
  now replace (m - a + a) with m by lia.
Qed.

Lemma slice_past_end (t : str) (a b : nat) :
  slice t a (Nat.min (length t) b) = slice t a b.
Proof.
  unfold slice.
  destruct (Nat.le_gt_cases b (length t)) as [H|H].
  - now rewrite Nat.min_r.
  - rewrite Nat.min_l by lia.
    rewrite !firstn_all2; try reflexivity; rewrite length_skipn; lia.
Qed.

Lemma count_newlines_split (text : str) (a d : nat) :
  count_newlines text (a + d)
  = count_newlines text a + count_newlines (skipn a text) d.
Proof.
  unfold count_newlines. now rewrite firstn_plus, count_occ_app.
Qed.

Lemma count_newlines_le (text : str) (a : nat) : count_newlines text a <= a.
Proof.
  unfold count_newlines.
  pose proof (count_occ_bound ascii_dec LF (firstn a text)) as H.
  rewrite length_firstn in H. lia.
Qed.

(** In the sanitized text no line number is higher than in the raw text. *)
Lemma count_newlines_kept (x y : str) :
  Forall2 kept_or_blank x y ->
  forall off, count_newlines y off <= count_newlines x off.
Proof.
  unfold count_newlines.
  induction 1 as [|a b x y Hab _ IH]; intros [|off]; simpl; try lia.
  specialize (IH off).
  destruct Hab as [->| ->].
  - destruct (ascii_dec a LF); lia.
  - destruct (ascii_dec SPACE LF) as [E|_]; [discriminate E|].
    destruct (ascii_dec a LF); lia.
Qed.

(* ------------------------------------------------------------------ *)
(** ** Accessors and suggestions *)

Lemma in_targets_iff (tb : str) :
  in_targets (Some tb) = true <-> In tb TARGET_TABLES.
Proof.
  split; [apply in_targets_In|].
  intros H. unfold in_targets. apply existsb_exists. exists tb. split; [exact H|].
  now apply str_eqb_eq.
Qed.

Lemma METHOD_MAP_closed (table : str) :
  METHOD_MAP table
  = if in_targets (Some table) then Ok (accessor table) else Raise KeyError.
Proof.
  unfold METHOD_MAP, METHOD_MAP_items, in_targets, TARGET_TABLES.
  cbn [dict_get existsb].
  destruct (str_eqb table (lit "t881")) eqn:E1.
  { apply str_eqb_eq in E1. subst table. reflexivity. }
  destruct (str_eqb table (lit "t881t")) eqn:E2.
  { apply str_eqb_eq in E2. subst table. reflexivity. }
  destruct (str_eqb table (lit "t882g")) eqn:E3.
  { apply str_eqb_eq in E3. subst table. reflexivity. }
  reflexivity.
Qed.

(** [METHOD_MAP] has exactly the keys of [TARGET_TABLES]: a lookup returns
    the accessor named after the table, or raises [KeyError] for any other
    string. *)
Theorem method_map_keys (table : str) :
  (forall v, METHOD_MAP table = Ok v
             <-> In table TARGET_TABLES /\ v = accessor table)
  /\ (METHOD_MAP table = Raise KeyError <-> ~ In table TARGET_TABLES).
Proof.
  rewrite METHOD_MAP_closed.
  destruct (in_targets (Some table)) eqn:E.
  - apply in_targets_iff in E. split.
    + intros v. split.
      * intros [= <-]. now split.
      * intros [_ ->]. reflexivity.
    + split; [discriminate | contradiction].
  - assert (~ In table TARGET_TABLES) as Hn.
    { intros H. apply in_targets_iff in H. rewrite H in E. discriminate E. }
    split.
    + intros v. split; [discriminate | intros [H _]; contradiction].
    + split; auto.
Qed.

Lemma suggestion_for_read_closed (table : str) :
  in_targets (Some table) = true ->
  exists example,
    suggestion_for_read table
    = Ok (lit "Replace direct read of " ++ upper table ++ lit " with "
          ++ accessor table ++ lit "." ++ NL ++ NL
          ++ lit "Example:" ++ NL ++ example)
    /\ contains example (lit "VALUE " ++ table ++ lit "( ).") = true
    /\ contains example (accessor table ++ lit "(") = true
    /\ contains example (lit "EXCEPTIONS not_found = 1 OTHERS = 2 ).")
       = true.
Proof.
  intros E. apply in_targets_cases in E as [-> | [-> | ->]];
    eexists; (split; [reflexivity|]); vm_compute; auto.
Qed.

(** [suggestion_for_read] raises [KeyError] off the target tables.  On a
    target table it names the table in upper case and its accessor, and
    shows an example that declares a structure of the table and calls the
    accessor; the closing [Use ...] text is never returned. *)
Theorem suggestion_for_read_cases (table : str) :
  if in_targets (Some table)
  then exists example,
         suggestion_for_read table
         = Ok (lit "Replace direct read of " ++ upper table ++ lit " with "
               ++ accessor table ++ lit "." ++ NL ++ NL
               ++ lit "Example:" ++ NL ++ example)
         /\ contains example (lit "VALUE " ++ table ++ lit "( ).") = true
         /\ contains example (accessor table ++ lit "(") = true
         /\ contains example (lit "EXCEPTIONS not_found = 1 OTHERS = 2 ).")
            = true
  else suggestion_for_read table = Raise KeyError.
Proof.
  destruct (in_targets (Some table)) eqn:E.
  - now apply suggestion_for_read_closed.
  - unfold suggestion_for_read. rewrite METHOD_MAP_closed, E. reflexivity.
Qed.

Lemma contains_refl_app (a b : str) : contains (a ++ b) a = true.
Proof.
  destruct a as [|c a]; [destruct b; reflexivity|].
  cbn [app contains]. apply orb_true_iff. left.
  change (startswith ((c :: a) ++ b) (c :: a) = true).
  generalize (c :: a). clear. intros a.
  induction a as [|x a IH]; [reflexivity|].
  cbn [app startswith]. now rewrite Ascii.eqb_refl, IH.
Qed.

Lemma contains_app_r (a b sub : str) :
  contains b sub = true -> contains (a ++ b) sub = true.
Proof.
  intros H. induction a as [|c a IH]; [exact H|].
  cbn [app contains]. rewrite IH. apply orb_true_r.
Qed.

Lemma contains_middle (a b c : str) : contains (a ++ b ++ c) b = true.
Proof. apply contains_app_r, contains_refl_app. Qed.

Lemma lower_char_idem (c : ascii) : lower_char (lower_char c) = lower_char c.
Proof. all_chars c. Qed.

Lemma lower_idem (s : str) : lower (lower s) = lower s.
Proof.
  unfold lower. rewrite map_map. apply map_ext. apply lower_char_idem.
Qed.

(** [canon] folds case and maps the empty string to [None]: it never
    returns the empty string, leaves its results unchanged and does not
    tell the spellings of a name apart. *)
Theorem canon_folds_case (s : option str) :
  canon s <> Some []
  /\ canon (canon s) = canon s
  /\ canon (option_map lower s) = canon s
  /\ (canon s = None <-> s = None \/ s = Some []).
Proof.
  destruct s as [[|c t]|]; cbn [canon option_map lower map].
  - repeat split; try discriminate; auto.
  - repeat split; try discriminate.
    + now rewrite !lower_char_idem, (map_map lower_char),
        (map_ext _ _ lower_char_idem).
    + now rewrite !lower_char_idem, (map_map lower_char),
        (map_ext _ _ lower_char_idem).
    + intros [H|H]; discriminate H.
  - repeat split; try discriminate; auto.
Qed.

(* ------------------------------------------------------------------ *)
(** ** Statements *)

Lemma matches_avoids_dot (r : regex) (cu cu' : cursor) (cs cs' : captures) :
  matches r cu cs cu' cs' -> avoids_dot r = true ->
  exists l, rest cu = l ++ rest cu' /\ pos cu' = pos cu + length l
            /\ ~ In DOT l.
Proof.
  induction 1 as
    [c x cu cu' cs Ha Hi | c x cu cu' cs Ha Hi | x cu cu' cs Ha Hs
    | cu cs Hb
    | r1 r2 cu cs cu1 cs1 cu2 cs2 M1 IH1 M2 IH2
    | r1 r2 cu cs cu' cs' M IH | r1 r2 cu cs cu' cs' M IH
    | r cu cs cu' cs' M IH | r cu cs | r cu cs
    | r cu cs cu1 cs1 cu2 cs2 M1 IH1 M2 IH2
    | r cu cs cu1 cs1 cu2 cs2 M1 IH1 M2 IH2
    | n r cu cs cu' cs' M IH | cu cs ];
    cbn [avoids_dot]; intros Hr;
    try (apply andb_true_iff in Hr as [Hr1 Hr2]).
  - apply advance_inv in Ha as (Hrest & Hpos & _).
    exists [x]. repeat split; [exact Hrest | simpl; lia |].
    intros [E|[]]. subst x. rewrite Hi in Hr. discriminate Hr.
  - apply advance_inv in Ha as (Hrest & Hpos & _).
    exists [x]. repeat split; [exact Hrest | simpl; lia |].
    intros [E|[]]. subst x. rewrite Hi in Hr. discriminate Hr.
  - apply advance_inv in Ha as (Hrest & Hpos & _).
    exists [x]. repeat split; [exact Hrest | simpl; lia |].
    intros [E|[]]. subst x. discriminate Hs.
  - exists []. repeat split; simpl; auto.
  - destruct (IH1 Hr1) as (l1 & E1 & P1 & N1).
    destruct (IH2 Hr2) as (l2 & E2 & P2 & N2).
    exists (l1 ++ l2). rewrite <- app_assoc, <- E2, length_app.
    repeat split; [exact E1 | lia |].
    intros H. apply in_app_or in H as [H|H]; auto.
  - auto.
  - auto.
  - auto.
  - exists []. repeat split; simpl; auto.
  - exists []. repeat split; simpl; auto.
  - destruct (IH1 Hr) as (l1 & E1 & P1 & N1).
    destruct (IH2 Hr) as (l2 & E2 & P2 & N2).
    exists (l1 ++ l2). rewrite <- app_assoc, <- E2, length_app.
    repeat split; [exact E1 | lia |].
    intros H. apply in_app_or in H as [H|H]; auto.
  - destruct (IH1 Hr) as (l1 & E1 & P1 & N1).
    destruct (IH2 Hr) as (l2 & E2 & P2 & N2).
    exists (l1 ++ l2). rewrite <- app_assoc, <- E2, length_app.
    repeat split; [exact E1 | lia |].
    intros H. apply in_app_or in H as [H|H]; auto.
  - auto.
  - exists []. repeat split; simpl; auto.
Qed.

Lemma matches_ends_at_dot (r : regex) (cu cu' : cursor) (cs cs' : captures) :
  matches r cu cs cu' cs' -> ends_at_dot r = true ->
  exists l, rest cu = (l ++ [DOT]) ++ rest cu'
            /\ pos cu' = pos cu + length (l ++ [DOT])
            /\ ~ In DOT l.
Proof.
  induction 1 as
    [c x cu cu' cs Ha Hi | c x cu cu' cs Ha Hi | x cu cu' cs Ha Hs
    | cu cs Hb
    | r1 r2 cu cs cu1 cs1 cu2 cs2 M1 IH1 M2 IH2
    | r1 r2 cu cs cu' cs' M IH | r1 r2 cu cs cu' cs' M IH
    | r cu cs cu' cs' M IH | r cu cs | r cu cs
    | r cu cs cu1 cs1 cu2 cs2 M1 IH1 M2 IH2
    | r cu cs cu1 cs1 cu2 cs2 M1 IH1 M2 IH2
    | n r cu cs cu' cs' M IH | cu cs ];
    cbn [ends_at_dot]; intros Hr; try discriminate Hr;
    try (apply andb_true_iff in Hr as [Hr1 Hr2]).
  - apply Ascii.eqb_eq in Hr. subst c. apply ieq_dot in Hi. subst x.
    apply advance_inv in Ha as (Hrest & Hpos & _).
    exists []. repeat split; [exact Hrest | simpl; lia | auto].
  - destruct (matches_avoids_dot M1 Hr1) as (l1 & E1 & P1 & N1).
    destruct (IH2 Hr2) as (l2 & E2 & P2 & N2).
    exists (l1 ++ l2). rewrite E1, E2, !length_app in *.
    repeat split; [now rewrite <- !app_assoc | simpl in *; lia |].
    intros H. apply in_app_or in H as [H|H]; auto.
  - auto.
  - auto.
  - auto.
Qed.

(** A match of a pattern that ends at a full stop is a statement of the
    text. *)
Lemma finditer_statement_span (r : regex) (text : str) :
  ends_at_dot r = true -> Forall (statement_span text) (finditer r text).
Proof.
  intros Hr. apply Forall_forall. intros m Hm.
  apply finditer_match_at in Hm as (cu & Hcu & Hm).
  apply match_at_sound in Hm as (cu' & M & Hs & He).
  destruct (matches_ends_at_dot M Hr) as (l & E & P & N).
  pose proof (@slice_of_rest text cu cu' (l ++ [DOT]) Hcu E P) as Hsl.
  unfold statement_span, group0. rewrite Hs, He. split.
  - assert (length (slice text (pos cu) (pos cu')) <= length text - pos cu)
      as Hlen.
    { unfold slice. rewrite length_firstn, length_skipn. lia. }
    rewrite Hsl in Hlen. rewrite length_app in *. simpl in *. lia.
  - exists l. split; [exact Hsl|]. split; [exact N|].
    rewrite length_app in P. simpl in P. lia.
Qed.

(** Each pass of [scan_unit] reads statements: a match of its pattern runs
    from the keyword to the first full stop after it, which is its last
    character. *)
Theorem statements_end_at_first_full_stop (src : str) :
  Forall (statement_span src) (finditer STMT_SELECT_RE src)
  /\ Forall (statement_span src) (finditer STMT_OPEN_CURSOR_RE src)
  /\ Forall (statement_span src) (finditer WRITE_STMT_RE src).
Proof.
  repeat split; apply finditer_statement_span; reflexivity.
Qed.

(** The matches that [finditer] yields are disjoint and in the order of
    the text: each starts where the one before it has ended, or later. *)
Theorem matches_do_not_overlap (r : regex) (text : str) :
  StronglySorted (fun a b => m_end a <= m_start b) (finditer r text).
Proof.
  unfold finditer.
  enough (forall s skip p pv,
             StronglySorted (fun a b => m_end a <= m_start b)
                            (scan r skip p pv s)) as H by apply H.
  induction s as [|c s IH]; intros skip p pv; cbn [scan].
  - destruct skip; [|constructor].
    destruct (match_at r (mkCursor p pv [])); repeat constructor.
  - destruct skip as [|skip]; [|apply IH].
    destruct (match_at r (mkCursor p pv (c :: s))) as [m|] eqn:E;
      [|apply IH].
    constructor; [apply IH|].
    destruct (scan_sorted r s (m_end m - p - 1) (S p) (Some c)) as [_ H].
    eapply Forall_impl; [|exact H].
    intros m' Hm'. cbv beta in Hm'. apply match_at_start in E.
    simpl in E. lia.
Qed.

Lemma kept_no_dot (x y : str) :
  Forall2 kept_or_blank x y -> ~ In DOT x -> ~ In DOT y.
Proof.
  induction 1 as [|a b x y Hab _ IH]; [auto|].
  intros Hx [Hb|Hy].
  - destruct Hab as [->| ->]; [apply Hx; now left | discriminate Hb].
  - apply IH; [|exact Hy]. intros H. apply Hx. now right.
Qed.

Lemma In_slice (text : str) (a b : nat) (c : ascii) :
  In c (slice text a b) -> In c text.
Proof.
  unfold slice. intros H.
  rewrite <- (firstn_skipn a text). apply in_or_app. right.
  rewrite <- (firstn_skipn (b - a) (skipn a text)). apply in_or_app.
  now left.
Qed.

Lemma finditer_no_dot (r : regex) (text : str) :
  ends_at_dot r = true -> ~ In DOT text -> finditer r text = [].
Proof.
  intros Hr Hn.
  pose proof (@finditer_statement_span r text Hr) as H.
  destruct (finditer r text) as [|m ms]; [reflexivity|].
  apply Forall_inv in H. destruct H as (_ & l & E & _ & _).
  exfalso. apply Hn. apply (@In_slice text (m_start m) (m_end m)).
  fold (group0 text m). rewrite E. apply in_or_app. right. now left.
Qed.

(* ------------------------------------------------------------------ *)
(** ** Findings *)

Lemma has_full_stop_In (s : str) : has_full_stop s = false -> ~ In DOT s.
Proof.
  unfold has_full_stop. intros H Hin.
  assert (existsb (Ascii.eqb DOT) s = true) as E.
  { apply existsb_exists. exists DOT. split; [exact Hin|].
    apply Ascii.eqb_refl. }
  rewrite E in H. discriminate H.
Qed.

Lemma hits_no_dot (src : str) : ~ In DOT src -> hits src = [].
Proof.
  intros H. unfold hits, read_hits, write_hits.
  now rewrite !finditer_no_dot.
Qed.

(** Code without a full stop has no statement, and so no finding. *)
Theorem no_full_stop_no_finding (u : Unit.t) :
  has_full_stop (code_or_empty u) = false ->
  scan_unit u = Ok (mkResult u []).
Proof.
  intros H. apply has_full_stop_In in H.
  destruct (scan_unit_closed u) as (fs & E & Hfs).
  rewrite hits_no_dot in Hfs.
  - inversion Hfs. subst fs. exact E.
  - eapply kept_no_dot; [apply sanitized_pointwise | exact H].
Qed.

Lemma no_full_stop_no_finding_example :
  let u := Unit.mk (lit "ZPGM") (lit "ZINC") (lit "REPORT") None None None
             (Some (lit "SELECT * FROM t881 INTO TABLE lt_t881")) in
  has_full_stop (code_or_empty u) = false
  /\ scan_unit u = Ok (mkResult u []).
Proof.
  cbv zeta. split; [reflexivity|].
  apply no_full_stop_no_finding. reflexivity.
Defined.

Lemma hits_targets (src : str) :
  Forall (fun h => in_targets (Some (h_tb h)) = true) (hits src).
Proof.
  assert (forall p re,
             Forall (fun h => in_targets (Some (h_tb h)) = true)
                    (read_hits p re src)) as Hread.
  { intros p re. apply Forall_forall. intros h Hh.
    unfold read_hits in Hh. apply in_flat_map in Hh as (m & _ & Hh).
    apply in_map_iff in Hh as ([[tb a] b] & <- & Hin).
    cbn [h_tb]. eapply find_tables_in_select_targets. exact Hin. }
  unfold hits. repeat (apply Forall_app; split); try apply Hread.
  apply Forall_forall. intros h Hh.
  unfold write_hits in Hh. apply in_flat_map in Hh as (m & _ & Hh).
  cbv zeta in Hh.
  destruct (truthy (write_table src m) && in_targets (write_table src m))
    eqn:E; [|destruct Hh].
  apply andb_true_iff in E as [_ E].
  destruct (write_table src m) as [t|]; [|destruct Hh].
  destruct Hh as [<-|[]]. exact E.
Qed.

Lemma read_finding_fields (u : Unit.t) (raw src : str) (p : read_pass)
  (s0 s1 : nat) (tb : str) :
  in_targets (Some tb) = true ->
  exists msg sugg,
    read_finding u raw src p s0 s1 tb
    = Ok (Finding.mk (Unit.pgm_name u) (Unit.inc_name u) (Unit.type u)
            (Unit.name u) (Unit.start_line u) (Unit.end_line u)
            (lit "DirectRead") (lit "info")
            (line_of_offset src s0) msg sugg (snippet_at raw s0 s1))
    /\ contains msg (upper tb) = true
    /\ contains sugg (upper tb) = true.
Proof.
  intros H. unfold read_finding, read_message.
  rewrite METHOD_MAP_closed, H. cbn [bind].
  destruct (suggestion_for_read_closed tb H) as (example & -> & _).
  destruct p; cbn [bind]; eexists; eexists;
    (split; [reflexivity|]); split; apply contains_middle.
Qed.

Lemma built_names_table (u : Unit.t) (raw src : str) (h : hit)
  (f : Finding.t) :
  in_targets (Some (h_tb h)) = true ->
  built u raw src h f ->
  contains (Finding.message f) (upper (h_tb h)) = true
  /\ contains (Finding.suggestion f) (upper (h_tb h)) = true.
Proof.
  intros Ht Hb. unfold built, finding_of_hit in Hb.
  destruct (h_pass h) as [p|].
  - destruct (@read_finding_fields u raw src p (h_s0 h) (h_s1 h) (h_tb h) Ht)
      as (msg & sugg & E & Hm & Hg).
    rewrite E in Hb. injection Hb as <-. split; assumption.
  - injection Hb as <-. split; apply contains_middle.
Qed.

Lemma built_well_formed (u : Unit.t) (raw src : str) (h : hit)
  (f : Finding.t) :
  in_targets (Some (h_tb h)) = true ->
  built u raw src h f -> well_formed u f.
Proof.
  intros Ht Hb. pose proof (built_names_table Ht Hb) as Hn.
  unfold built, finding_of_hit in Hb.
  assert (~ In LF (snippet_at raw (h_s0 h) (h_s1 h))) as Hsn
    by apply escape_newlines_no_newline.
  assert (exists tb, In tb TARGET_TABLES
                     /\ contains (Finding.message f) (upper tb) = true
                     /\ contains (Finding.suggestion f) (upper tb) = true)
    as Htb.
  { exists (h_tb h). split; [now apply in_targets_In | exact Hn]. }
  clear Hn. destruct (h_pass h) as [p|].
  - destruct (@read_finding_fields u raw src p (h_s0 h) (h_s1 h) (h_tb h) Ht)
      as (msg & sugg & E & _).
    rewrite E in Hb. injection Hb as <-.
    split; [repeat split|]. split; [left; split; reflexivity|].
    split; [exact Hsn | exact Htb].
  - injection Hb as <-.
    split; [repeat split|]. split; [right; split; reflexivity|].
    split; [exact Hsn | exact Htb].
Qed.

(** Every finding of [scan_unit] carries the identification of its unit,
    is a [DirectRead] of severity [info] or a [DisallowedWrite] of
    severity [warning], has a snippet without a newline, and names one of
    the target tables, in upper case, in its message and its suggestion. *)
Theorem findings_well_formed (u : Unit.t) :
  exists fs,
    scan_unit u = Ok (mkResult u fs) /\ Forall (well_formed u) fs.
Proof.
  destruct (scan_unit_closed u) as (fs & E & Hfs).
  exists fs. split; [exact E|].
  pose proof (hits_targets (sanitized (code_or_empty u))) as Ht.
  revert Hfs Ht. generalize (hits (sanitized (code_or_empty u))).
  intros hs Hfs Ht. clear E.
  induction Hfs as [|h f hs fs Hb _ IH]; constructor.
  - eapply built_well_formed; [|exact Hb]. now apply Forall_inv in Ht.
  - apply IH. now apply Forall_inv_tail in Ht.
Qed.

Lemma built_same_report (u1 u2 : Unit.t) (raw src : str) (h : hit)
  (f1 f2 : Finding.t) :
  built u1 raw src h f1 -> built u2 raw src h f2 -> same_report f1 f2.
Proof.
  unfold built, finding_of_hit, read_finding. intros H1 H2.
  destruct (h_pass h) as [p|].
  - destruct (read_message p (h_tb h)); [|discriminate H1].
    destruct (suggestion_for_read (h_tb h)); [|discriminate H1].
    cbn [bind] in H1, H2. injection H1 as <-. injection H2 as <-.
    repeat split.
  - injection H1 as <-. injection H2 as <-. repeat split.
Qed.

(** What a unit is called has no influence on what is found in it: units
    with the same code have findings that differ at most in the fields
    copied from the unit. *)
Theorem findings_depend_on_code_only (meta1 meta2 : Unit.t)
  (c : option str) :
  let u1 := unit_with meta1 c in
  let u2 := unit_with meta2 c in
  exists fs1 fs2,
    scan_unit u1 = Ok (mkResult u1 fs1)
    /\ scan_unit u2 = Ok (mkResult u2 fs2)
    /\ Forall2 same_report fs1 fs2.
Proof.
  cbv zeta.
  destruct (scan_unit_closed (unit_with meta1 c)) as (fs1 & E1 & H1).
  destruct (scan_unit_closed (unit_with meta2 c)) as (fs2 & E2 & H2).
  exists fs1, fs2. split; [exact E1|]. split; [exact E2|].
  change (code_or_empty (unit_with meta2 c))
    with (code_or_empty (unit_with meta1 c)) in H2.
  clear E1 E2. revert fs2 H1 H2.
  generalize (hits (sanitized (code_or_empty (unit_with meta1 c)))).
  intros hs fs2 H1. revert fs2.
  induction H1 as [|h f1 hs fs1 Hb1 _ IH]; intros fs2 H2.
  - inversion H2. constructor.
  - inversion H2 as [|h' f2 hs' fs2' Hb2 H2' Eh Ef]. subst.
    constructor; [eapply built_same_report; eassumption|].
    apply IH; auto.
Qed.

Lemma count_newlines_all (text : str) (off : nat) :
  count_newlines text off <= count_newlines text (length text).
Proof.
  destruct (Nat.le_gt_cases off (length text)) as [H|H].
  - replace (length text) with (off + (length text - off)) by lia.
    rewrite count_newlines_split. lia.
  - unfold count_newlines. rewrite !firstn_all2; lia.
Qed.

(** The line of a finding is counted in the sanitized code: it is a line
    of the code and never lies after the line of the raw code on which the
    statement starts. *)
Theorem reported_line_not_after_statement (u : Unit.t) :
  let raw := code_or_empty u in
  exists src fs,
    rm_strings_and_comments raw = Ok src
    /\ scan_unit u = Ok (mkResult u fs)
    /\ Forall2 (fun h f =>
                  1 <= Finding.line f
                  /\ Finding.line f <= line_of_offset raw (h_s0 h)
                  /\ Finding.line f <= line_of_offset raw (length raw))
               (hits src) fs.
Proof.
  cbv zeta. exists (sanitized (code_or_empty u)).
  destruct (scan_unit_closed u) as (fs & E & Hfs).
  exists fs. split; [apply rm_strings_and_comments_closed|].
  split; [exact E|].
  eapply Forall2_impl; [|exact Hfs].
  intros h f Hb. cbv beta.
  assert (Finding.line f
          = line_of_offset (sanitized (code_or_empty u)) (h_s0 h)) as ->.
  { unfold built, finding_of_hit, read_finding in Hb.
    destruct (h_pass h) as [p|].
    - destruct (read_message p (h_tb h)); [|discriminate Hb].
      destruct (suggestion_for_read (h_tb h)); [|discriminate Hb].
      cbn [bind] in Hb. now injection Hb as <-.
    - now injection Hb as <-. }
  unfold line_of_offset.
  pose proof (count_newlines_kept (sanitized_pointwise (code_or_empty u))
                (h_s0 h)).
  pose proof (count_newlines_all (code_or_empty u) (h_s0 h)).
  lia.
Qed.

(* ------------------------------------------------------------------ *)
(** ** Code without literals and comments *)

Lemma blank_chars_plain (l : str) :
  quote_free l = true -> blank_chars false l = l.
Proof.
  induction l as [|ch tl IH]; intros H; rewrite blank_chars_equation;
    [reflexivity|].
  cbn [quote_free forallb] in H. apply andb_true_iff in H as [Hc Ht].
  apply negb_true_iff, orb_false_iff in Hc as [-> ->].
  cbn [andb]. now rewrite (IH Ht).
Qed.




Lemma built_line_snippet (u : Unit.t) (raw src : str) (h : hit)
  (f : Finding.t) :
  built u raw src h f ->
  Finding.line f = line_of_offset src (h_s0 h)
  /\ Finding.snippet f = snippet_at raw (h_s0 h) (h_s1 h).
Proof.
  unfold built, finding_of_hit, read_finding. intros Hb.
  destruct (h_pass h) as [p|].
  - destruct (read_message p (h_tb h)); [|discriminate Hb].
    destruct (suggestion_for_read (h_tb h)); [|discriminate Hb].
    cbn [bind] in Hb. injection Hb as <-. split; reflexivity.
  - injection Hb as <-. split; reflexivity.
Qed.



(* ------------------------------------------------------------------ *)
(** ** One line after the other *)

Lemma splitlines_from_after_newline (n : nat) :
  forall x cur y,
    length x <= n ->
    splitlines_from cur (x ++ LF :: y)
    = splitlines_from cur (x ++ [LF]) ++ splitlines y.
Proof.
  induction n as [|n IH]; intros x cur y Hn.
  - destruct x as [|c x]; [|simpl in Hn; lia].
    cbn [app]. rewrite !(splitlines_from_equation cur (LF :: _)).
    change (Ascii.eqb LF CR) with false. change (is_linebreak LF) with true.
    cbv iota. rewrite (splitlines_from_equation [] []). reflexivity.
  - destruct x as [|c x]; [apply (IH []); simpl; lia|].
    simpl in Hn. cbn [app].
    rewrite (splitlines_from_equation cur (c :: x ++ LF :: y)),
      (splitlines_from_equation cur (c :: x ++ [LF])).
    destruct (Ascii.eqb c CR).
    + destruct x as [|d x]; cbn [app].
      * change (Ascii.eqb LF LF) with true. cbv iota.
        rewrite (splitlines_from_equation [] []). reflexivity.
      * destruct (Ascii.eqb d LF).
        -- cbn [app]. f_equal. apply IH. simpl in Hn. lia.
        -- cbn [app]. f_equal. apply (IH (d :: x)). simpl in *. lia.
    + destruct (is_linebreak c).
      * cbn [app]. f_equal. apply IH. lia.
      * apply IH. lia.
Qed.

Lemma sanitized_after_newline (x y : str) :
  sanitized (x ++ LF :: y) = sanitized (x ++ [LF]) ++ sanitized y.
Proof.
  unfold sanitized, splitlines.
  rewrite (@splitlines_from_after_newline (length x) x [] y (le_n _)).
  now rewrite map_app, concat_app.
Qed.

(** The sanitizer works line by line: what follows a newline is sanitized
    as if the code started there, so a string literal left open on a line
    hides nothing of the next one. *)
Theorem sanitizer_line_by_line (x y : str) :
  exists sx sy,
    rm_strings_and_comments (x ++ [LF]) = Ok sx
    /\ rm_strings_and_comments y = Ok sy
    /\ rm_strings_and_comments (x ++ LF :: y) = Ok (sx ++ sy).
Proof.
  exists (sanitized (x ++ [LF])), (sanitized y).
  rewrite !rm_strings_and_comments_closed.
  split; [reflexivity|]. split; [reflexivity|].
  f_equal. apply sanitized_after_newline.
Qed.

(* ------------------------------------------------------------------ *)
(** ** Batches *)

Lemma scan_results_unique (us : list Unit.t) :
  forall l1 l2,
    Forall2 (fun u r => scan_unit u = Ok r) us l1 ->
    Forall2 (fun u r => scan_unit u = Ok r) us l2 -> l1 = l2.
Proof.
  induction us as [|u us IH]; intros l1 l2 H1 H2;
    inversion H1 as [|? r1 ? t1 E1 T1]; inversion H2 as [|? r2 ? t2 E2 T2];
    subst; [reflexivity|].
  rewrite E1 in E2. injection E2 as ->. f_equal. now apply IH.
Qed.

Lemma has_findings_filter (us : list Unit.t) (all : list ScanResult) :
  Forall2 (fun u r => scan_unit u = Ok r) us all ->
  Forall (fun r => In (dump r) us /\ rule628_findings r <> [])
         (filter has_findings all).
Proof.
  intros H. apply Forall_forall. intros r Hr.
  apply filter_In in Hr as [Hr Hf]. split.
  - clear Hf. induction H as [|u r' us all E _ IH]; [destruct Hr|].
    destruct Hr as [->|Hr]; [|right; now apply IH].
    left. destruct (scan_unit_closed u) as (fs & E' & _).
    rewrite E' in E. now injection E as <-.
  - unfold has_findings in Hf. intros E. rewrite E in Hf. discriminate Hf.
Qed.

(** A batch is scanned unit by unit: the results of two batches, one after
    the other, are the results of the batch of all their units.  A batch
    has at most one result for each unit, and each result is that of a
    unit of the batch and has a finding. *)
Theorem batch_unit_by_unit (a b : list Unit.t) :
  exists ra rb,
    scan_rule_array a = Ok ra
    /\ scan_rule_array b = Ok rb
    /\ scan_rule_array (a ++ b) = Ok (ra ++ rb)
    /\ length ra <= length a
    /\ Forall (fun r => In (dump r) a /\ rule628_findings r <> []) ra.
Proof.
  destruct (scan_rule_array_closed a) as (la & Ha & Ea).
  destruct (scan_rule_array_closed b) as (lb & Hb & Eb).
  destruct (scan_rule_array_closed (a ++ b)) as (lab & Hab & Eab).
  exists (filter has_findings la), (filter has_findings lb).
  unfold scan_rule_array. rewrite Ea, Eb, Eab. cbn [app].
  repeat split.
  - rewrite <- filter_app. do 2 f_equal.
    apply (@scan_results_unique (a ++ b)); [exact Hab|].
    now apply Forall2_app.
  - rewrite (Forall2_length Ha). apply filter_length_le.
  - now apply has_findings_filter.
Qed.

(* ------------------------------------------------------------------ *)
(** ** Where the reported tables stand *)

Lemma span_in_le (lo hi hi' : nat) (cs : captures) :
  hi <= hi' -> Forall (span_in lo hi) cs -> Forall (span_in lo hi') cs.
Proof.
  intros Hle. apply Forall_impl. intros g (H1 & H2 & H3).
  unfold span_in. lia.
Qed.

(** The groups of a match lie inside the match. *)
Lemma matches_groups_in (r : regex) (cu cu' : cursor) (cs cs' : captures) :
  matches r cu cs cu' cs' ->
  forall lo, lo <= pos cu ->
             Forall (span_in lo (pos cu)) cs ->
             Forall (span_in lo (pos cu')) cs'.
Proof.
  induction 1 as
    [c x cu cu' cs Ha Hi | c x cu cu' cs Ha Hi | x cu cu' cs Ha Hs
    | cu cs Hb
    | r1 r2 cu cs cu1 cs1 cu2 cs2 M1 IH1 M2 IH2
    | r1 r2 cu cs cu' cs' M IH | r1 r2 cu cs cu' cs' M IH
    | r cu cs cu' cs' M IH | r cu cs | r cu cs
    | r cu cs cu1 cs1 cu2 cs2 M1 IH1 M2 IH2
    | r cu cs cu1 cs1 cu2 cs2 M1 IH1 M2 IH2
    | n r cu cs cu' cs' M IH | cu cs ];
    intros lo Hlo Hcs; auto.
  - apply advance_inv in Ha as (_ & Hp & _).
    eapply span_in_le; [|exact Hcs]. lia.
  - apply advance_inv in Ha as (_ & Hp & _).
    eapply span_in_le; [|exact Hcs]. lia.
  - apply advance_inv in Ha as (_ & Hp & _).
    eapply span_in_le; [|exact Hcs]. lia.
  - apply IH2; [|now apply IH1].
    apply matches_pos_le in M1. lia.
  - apply IH2; [|now apply IH1].
    apply matches_pos_le in M1. lia.
  - apply IH2; [|now apply IH1].
    apply matches_pos_le in M1. lia.
  - constructor; [|now apply IH].
    apply matches_pos_le in M. unfold span_in. simpl. lia.
Qed.

Lemma lookup_group_In (name : string) (cs : captures) (sp : nat * nat) :
  lookup_group name cs = Some sp -> exists n, In (n, sp) cs.
Proof.
  induction cs as [|[n sp'] cs IH]; cbn [lookup_group]; [discriminate|].
  destruct (String.eqb n name).
  - intros [= ->]. exists n. now left.
  - intros H. destruct (IH H) as [n' Hn']. exists n'. now right.
Qed.

Lemma group_in_match (text : str) (r : regex) (m : rmatch) (name : string)
  (a b : nat) :
  In m (finditer r text) ->
  lookup_group name (m_groups m) = Some (a, b) ->
  m_start m <= a /\ a <= b /\ b <= m_end m.
Proof.
  intros Hm Hl.
  apply finditer_match_at in Hm as (cu & _ & Hm).
  apply match_at_sound in Hm as (cu' & M & Hs & He).
  apply lookup_group_In in Hl as [n Hn].
  pose proof (matches_groups_in M (le_n _) (Forall_nil _)) as H.
  rewrite Forall_forall in H. specialize (H _ Hn).
  unfold span_in in H. simpl in H. lia.
Qed.

Lemma startswith_own_prefix (l : str) (k : nat) :
  startswith l (firstn k l) = true.
Proof.
  revert l. induction k as [|k IH]; intros [|c l]; cbn [firstn startswith];
    try reflexivity.
  now rewrite Ascii.eqb_refl, IH.
Qed.

(** The text of a group that [canon] maps to [tb] spells [tb]. *)
Lemma canon_slice_mention (text : str) (a b : nat) (tb : str) :
  canon (Some (slice text a b)) = Some tb ->
  mention_at tb text a = true /\ length tb <= b - a
  /\ length tb <= length text - a.
Proof.
  unfold canon. destruct (slice text a b) as [|c t] eqn:E; [discriminate|].
  intros [= <-]. change (lower_char c :: lower t) with (lower (c :: t)).
  rewrite <- E. unfold mention_at, slice, lower.
  rewrite <- firstn_map. split; [apply startswith_own_prefix|].
  rewrite length_firstn, length_map, length_skipn. lia.
Qed.

Lemma read_hits_mentioned (p : read_pass) (re : regex) (src : str) :
  Forall (mentioned_in src) (read_hits p re src).
Proof.
  apply Forall_forall. intros h Hh.
  unfold read_hits in Hh. apply in_flat_map in Hh as (m & _ & Hh).
  apply in_map_iff in Hh as ([[tb ts] te] & <- & Hin).
  unfold find_tables_in_select in Hin.
  apply in_flat_map in Hin as (m' & Hm' & Hin). cbv zeta in Hin.
  destruct (canon (group (group0 src m) m' "table")) as [t|] eqn:Ec;
    [|destruct Hin].
  destruct (in_targets (Some t)) eqn:Et; [|destruct Hin].
  destruct Hin as [[= <- <- <-]|[]].
  unfold group in Ec.
  destruct (lookup_group "table" (m_groups m')) as [[a b]|] eqn:El;
    [|discriminate Ec].
  apply canon_slice_mention in Ec as (Hmen & _ & Hlen).
  pose proof (mention_slice _ _ _ _ _ Hmen) as Hsrc.
  pose proof (slice_length src (m_start m) (m_end m)) as Hsl.
  apply in_targets_In, targets_nonempty in Et.
  assert (0 < length t) as Hpos by (destruct t; [congruence|simpl; lia]).
  exists (a + m_start m). cbn [h_s0 h_s1 h_tb].
  unfold group0 in Hlen. repeat split; [lia | lia | exact Hsrc].
Qed.

Lemma write_hits_mentioned (src : str) :
  Forall (mentioned_in src) (write_hits src).
Proof.
  apply Forall_forall. intros h Hh.
  unfold write_hits in Hh. apply in_flat_map in Hh as (m & Hm & Hh).
  cbv zeta in Hh.
  destruct (truthy (write_table src m) && in_targets (write_table src m));
    [|destruct Hh].
  destruct (write_table src m) as [t|] eqn:Ew; [|destruct Hh].
  destruct Hh as [<-|[]].
  assert (exists name a b,
             lookup_group name (m_groups m) = Some (a, b)
             /\ canon (Some (slice src a b)) = Some t)
    as (name & a & b & Hl & Hc).
  { unfold write_table, py_or, group in Ew.
    destruct (lookup_group "table1" (m_groups m)) as [[a1 b1]|] eqn:E1.
    - destruct (truthy (Some (slice src a1 b1))) eqn:T1.
      + exists "table1"%string, a1, b1. now split.
      + destruct (lookup_group "table2" (m_groups m)) as [[a2 b2]|] eqn:E2;
          [|discriminate Ew].
        exists "table2"%string, a2, b2. now split.
    - cbn [truthy] in Ew.
      destruct (lookup_group "table2" (m_groups m)) as [[a2 b2]|] eqn:E2;
        [|discriminate Ew].
      exists "table2"%string, a2, b2. now split. }
  apply (group_in_match _ _ _ _ Hm) in Hl.
  apply canon_slice_mention in Hc as (Hmen & Hlen & _).
  exists a. cbn [h_s0 h_s1 h_tb]. repeat split; [lia | lia | exact Hmen].
Qed.

Lemma hits_mentioned (src : str) : Forall (mentioned_in src) (hits src).
Proof.
  unfold hits. repeat (apply Forall_app; split);
    auto using read_hits_mentioned, write_hits_mentioned.
Qed.

(** A table spelled out in the sanitized code stands at the same place in
    the raw code. *)
Lemma mentioned_in_raw (raw : str) (h : hit) :
  In (h_tb h) TARGET_TABLES ->
  mentioned_in (sanitized raw) h -> mentioned_in raw h.
Proof.
  intros Ht (o & H0 & H1 & Hm). exists o. repeat split; auto.
  unfold mention_at in *.
  pose proof (Forall2_skipn o (sanitized_pointwise raw)) as Hk.
  destruct (@mention_kept _ (targets_no_space Ht) _ _ Hk Hm) as [Hr _].
  exact Hr.
Qed.



Lemma startswith_firstn_eq (name l : str) :
  startswith l name = true -> firstn (length name) l = name.
Proof.
  revert l. induction name as [|c name IH]; intros l H; [reflexivity|].
  destruct l as [|x l]; [discriminate H|].
  cbn [startswith] in H. apply andb_true_iff in H as [Hx Hl].
  apply Ascii.eqb_eq in Hx. subst x. cbn [length firstn].
  now rewrite IH.
Qed.

Lemma mention_spelled (name text : str) (o : nat) :
  mention_at name text o = true ->
  lower (slice text o (o + length name)) = name.
Proof.
  unfold mention_at, slice, lower. intros H.
  replace (o + length name - o) with (length name) by lia.
  rewrite <- firstn_map. now apply startswith_firstn_eq.
Qed.

Lemma lower_char_newline (c : ascii) :
  Ascii.eqb (lower_char c) LF = Ascii.eqb c LF.
Proof. all_chars c. Qed.

Lemma lower_escape_newlines (s : str) :
  lower (escape_newlines s) = escape_newlines (lower s).
Proof.
  induction s as [|c s IH]; [reflexivity|].
  change (lower (escape_newlines (c :: s)))
    with (lower ((if Ascii.eqb c LF then [BACKSLASH; "n"%char] else [c])
                 ++ escape_newlines s)).
  change (escape_newlines (lower (c :: s)))
    with ((if Ascii.eqb (lower_char c) LF
           then [BACKSLASH; "n"%char] else [lower_char c])
          ++ escape_newlines (lower s)).
  rewrite lower_char_newline, <- IH. unfold lower. rewrite map_app.
  now destruct (Ascii.eqb c LF).
Qed.

Lemma targets_no_newline (name : str) :
  In name TARGET_TABLES -> escape_newlines name = name.
Proof. intros [<- | [<- | [<- | []]]]; reflexivity. Qed.

Lemma lower_app (a b : str) : lower (a ++ b) = lower a ++ lower b.
Proof. apply map_app. Qed.

Lemma snippet_shows_mention (raw : str) (h : hit) :
  In (h_tb h) TARGET_TABLES ->
  mentioned_in raw h ->
  contains (lower (snippet_at raw (h_s0 h) (h_s1 h))) (h_tb h) = true.
Proof.
  intros Ht (o & H0 & H1 & Hm). unfold snippet_at. cbv zeta.
  rewrite slice_past_end.
  rewrite (@slice_split raw (h_s0 h - 140) o (h_s1 h + 140)) by lia.
  rewrite (@slice_split raw o (o + length (h_tb h)) (h_s1 h + 140)) by lia.
  rewrite !escape_newlines_app, !lower_app, !lower_escape_newlines.
  rewrite (mention_spelled _ _ _ Hm), (targets_no_newline Ht).
  apply contains_middle.
Qed.

(** The snippet of every finding shows the table that the finding is
    about, in the spelling of the code. *)
Theorem snippets_show_the_table (u : Unit.t) :
  exists fs,
    scan_unit u = Ok (mkResult u fs) /\ Forall shows_its_table fs.
Proof.
  destruct (scan_unit_closed u) as (fs & E & Hfs).
  exists fs. split; [exact E|].
  pose proof (hits_targets (sanitized (code_or_empty u))) as Ht.
  pose proof (hits_mentioned (sanitized (code_or_empty u))) as Hm.
  clear E. revert Ht Hm.
  induction Hfs as [|h f hs fs Hb _ IH]; intros Ht Hm; constructor.
  - apply Forall_inv in Ht, Hm.
    destruct (built_names_table Ht Hb) as [Hmsg _].
    destruct (built_line_snippet Hb) as [_ Hsn].
    apply in_targets_In in Ht.
    exists (h_tb h). split; [exact Ht|]. split; [exact Hmsg|].
    rewrite Hsn. apply snippet_shows_mention; [exact Ht|].
    now apply mentioned_in_raw.
  - apply IH; eapply Forall_inv_tail; eassumption.
Qed.

(* ------------------------------------------------------------------ *)
(** ** Literals and comments of a line *)

Lemma blank_chars_app_plain (pre l : str) :
  quote_free pre = true ->
  blank_chars false (pre ++ l) = pre ++ blank_chars false l.
Proof.
  induction pre as [|ch tl IH]; intros H; [reflexivity|].
  cbn [app]. rewrite blank_chars_equation.
  cbn [quote_free forallb] in H. apply andb_true_iff in H as [Hc Ht].
  apply negb_true_iff, orb_false_iff in Hc as [-> ->].
  cbn [andb]. now rewrite (IH Ht).
Qed.

Lemma blank_chars_in_literal (body l : str) :
  apostrophe_free body = true ->
  blank_chars true (body ++ l)
  = repeat SPACE (length body) ++ blank_chars true l.
Proof.
  induction body as [|ch tl IH]; intros H; [reflexivity|].
  cbn [app]. rewrite blank_chars_equation.
  cbn [apostrophe_free forallb] in H. apply andb_true_iff in H as [Hc Ht].
  apply negb_true_iff in Hc. rewrite Hc, andb_false_r.
  cbn [length repeat app]. now rewrite (IH Ht).
Qed.

Lemma blank_chars_closing (post : str) :
  quote_free post = true ->
  blank_chars true (QUOTE :: post) = QUOTE :: post.
Proof.
  intros H. rewrite blank_chars_equation.
  change (Ascii.eqb QUOTE QUOTE) with true. cbv iota.
  rewrite (@blank_chars_plain post H).
  destruct post as [|nx tl]; [reflexivity|].
  cbn [quote_free forallb] in H. apply andb_true_iff in H as [Hc _].
  apply negb_true_iff, orb_false_iff in Hc as [-> _]. reflexivity.
Qed.

Lemma not_a_comment_line (pre l : str) (c : ascii) :
  startswith pre [STAR] = false -> Ascii.eqb c STAR = false ->
  startswith (pre ++ c :: l) [STAR] = false.
Proof.
  intros Hp Hc. destruct pre as [|x pre]; cbn [app startswith] in *.
  - now rewrite Hc.
  - exact Hp.
Qed.

(** A double quote outside a string literal starts a comment: the line is
    blanked from the quote to its end, terminator included, and what
    stands before the quote is kept. *)
Theorem inline_comment_blanked (pre rest : str) :
  quote_free pre = true ->
  startswith pre [STAR] = false ->
  sanitize_line (pre ++ DQUOTE :: rest)
  = Ok (pre ++ repeat SPACE (S (length rest))).
Proof.
  intros Hq Hs. rewrite sanitize_line_closed. unfold blank_line.
  rewrite (@not_a_comment_line pre rest DQUOTE Hs eq_refl).
  now rewrite (@blank_chars_app_plain pre (DQUOTE :: rest) Hq).
Qed.

Lemma inline_comment_blanked_example :
  let pre := lit "x = 1. " in
  let rest := lit " FROM t881" ++ NL in
  quote_free pre = true
  /\ startswith pre [STAR] = false
  /\ sanitize_line (pre ++ DQUOTE :: rest)
     = Ok (pre ++ repeat SPACE (S (length rest))).
Proof.
  cbv zeta. split; [reflexivity|]. split; [reflexivity|].
  apply inline_comment_blanked; reflexivity.
Defined.

(** The content of a string literal is replaced by spaces, a double quote
    in it included, and its two quotes and the code around it are kept. *)
Theorem string_literal_blanked (pre body post : str) :
  quote_free pre = true ->
  startswith pre [STAR] = false ->
  apostrophe_free body = true ->
  quote_free post = true ->
  sanitize_line (pre ++ QUOTE :: body ++ QUOTE :: post)
  = Ok (pre ++ QUOTE :: repeat SPACE (length body) ++ QUOTE :: post).
Proof.
  intros Hq Hs Hb Hp. rewrite sanitize_line_closed. unfold blank_line.
  rewrite (@not_a_comment_line pre (body ++ QUOTE :: post) QUOTE Hs eq_refl).
  rewrite (@blank_chars_app_plain pre (QUOTE :: body ++ QUOTE :: post) Hq).
  rewrite (blank_chars_equation false (QUOTE :: _)).
  change (Ascii.eqb QUOTE QUOTE) with true. cbv iota.
  rewrite (@blank_chars_in_literal body (QUOTE :: post) Hb).
  now rewrite (@blank_chars_closing post Hp).
Qed.

Lemma string_literal_blanked_example :
  let pre := lit "lv = " in
  let body := lit "FROM t881 " ++ [DQUOTE] ++ lit " x" in
  let post := lit "." ++ NL in
  quote_free pre = true
  /\ startswith pre [STAR] = false
  /\ apostrophe_free body = true
  /\ quote_free post = true
  /\ sanitize_line (pre ++ QUOTE :: body ++ QUOTE :: post)
     = Ok (pre ++ QUOTE :: repeat SPACE (length body) ++ QUOTE :: post).
Proof.
  cbv zeta. do 4 (split; [reflexivity|]).
  apply string_literal_blanked; reflexivity.
Defined.


(* ------------------------------------------------------------------ *)
(** ** The helpers on every offset *)

Lemma adjust_index_of_nat (len n : nat) : adjust_index len (Z.of_nat n) = n.
Proof.
  unfold adjust_index.
  destruct (Z.ltb_spec (Z.of_nat n) 0) as [H|H]; [lia|].
  apply Nat2Z.id.
Qed.

Lemma line_of_offset_of_nat (text : str) (off : nat) :
  AnyInt.line_of_offset text (Z.of_nat off) = line_of_offset text off.
Proof.
  unfold AnyInt.line_of_offset, line_of_offset.
  now rewrite adjust_index_of_nat.
Qed.

Lemma snippet_at_of_nat (text : str) (start end_ : nat) :
  AnyInt.snippet_at text (Z.of_nat start) (Z.of_nat end_)
  = snippet_at text start end_.
Proof.
  unfold AnyInt.snippet_at, snippet_at. cbv zeta. f_equal. f_equal.
  - replace (Z.max 0 (Z.of_nat start - 140)) with (Z.of_nat (start - 140))
      by lia.
    apply adjust_index_of_nat.
  - replace (Z.min (Z.of_nat (length text)) (Z.of_nat end_ + 140))
      with (Z.of_nat (Nat.min (length text) (end_ + 140))) by lia.
    apply adjust_index_of_nat.
Qed.

Lemma snippet_at_window (text : str) (start end_ : Z) :
  (-140 <= end_)%Z ->
  AnyInt.snippet_at text start end_
  = escape_newlines
      (slice text (Z.to_nat (Z.max 0 (start - 140)))
         (Nat.min (length text) (Z.to_nat (end_ + 140)))).
Proof.
  intros H. unfold AnyInt.snippet_at, adjust_index. cbv zeta.
  destruct (Z.ltb_spec (Z.max 0 (start - 140)) 0) as [H1|_]; [lia|].
  destruct (Z.ltb_spec (Z.min (Z.of_nat (length text)) (end_ + 140)) 0)
    as [H2|_]; [lia|].
  do 2 f_equal. lia.
Qed.

(** For every text, every integer [start] and every integer [end_] from
    -140 on, the snippet is one line of bounded width: it holds no newline
    and at most twice the characters of its window, which starts at
    [max(0, start - 140)] and ends before [end_ + 140]. *)
Theorem snippet_one_bounded_line (text : str) (start end_ : Z) :
  (-140 <= end_)%Z ->
  ~ In LF (AnyInt.snippet_at text start end_)
  /\ length (AnyInt.snippet_at text start end_)
     <= 2 * (Z.to_nat (end_ + 140) - Z.to_nat (Z.max 0 (start - 140))).
Proof.
  intros H. rewrite (snippet_at_window text start H).
  split; [apply escape_newlines_no_newline|].
  pose proof (escape_newlines_length
                (slice text (Z.to_nat (Z.max 0 (start - 140)))
                       (Nat.min (length text) (Z.to_nat (end_ + 140)))))
    as [_ Hl].
  pose proof (slice_length text (Z.to_nat (Z.max 0 (start - 140)))
                (Nat.min (length text) (Z.to_nat (end_ + 140)))).
  lia.
Qed.

Lemma snippet_one_bounded_line_example :
  let text := lit "a." ++ NL ++ lit "SELECT x FROM t881." ++ NL ++ lit "b." in
  (-140 <= 22)%Z
  /\ ~ In LF (AnyInt.snippet_at text 3 22)
  /\ length (AnyInt.snippet_at text 3 22)
     <= 2 * (Z.to_nat (22 + 140) - Z.to_nat (Z.max 0 (3 - 140))).
Proof.
  cbv zeta. split; [lia|]. apply snippet_one_bounded_line. lia.
Defined.

(** For integers [0 <= start <= end_], the snippet of a span of the text
    is the span itself between the 140 characters before it and the 140
    after it, as far as the text goes, each with its newlines escaped. *)
Theorem snippet_window (text : str) (start end_ : Z) :
  (0 <= start)%Z -> (start <= end_)%Z ->
  let a := Z.to_nat start in
  let b := Z.to_nat end_ in
  AnyInt.snippet_at text start end_
  = escape_newlines (slice text (a - 140) a)
    ++ escape_newlines (slice text a b)
    ++ escape_newlines (slice text b (b + 140)).
Proof.
  intros H0 H1. cbv zeta.
  rewrite (snippet_at_window text start) by lia.
  replace (Z.to_nat (Z.max 0 (start - 140))) with (Z.to_nat start - 140)
    by lia.
  replace (Z.to_nat (end_ + 140)) with (Z.to_nat end_ + 140) by lia.
  rewrite slice_past_end.
  rewrite (@slice_split text (Z.to_nat start - 140) (Z.to_nat start)
             (Z.to_nat end_ + 140)) by lia.
  rewrite (@slice_split text (Z.to_nat start) (Z.to_nat end_)
             (Z.to_nat end_ + 140)) by lia.
  now rewrite !escape_newlines_app.
Qed.

Lemma snippet_window_example :
  let text := lit "a." ++ NL ++ lit "SELECT x FROM t881." ++ NL ++ lit "b." in
  (0 <= 3)%Z /\ (3 <= 22)%Z
  /\ AnyInt.snippet_at text 3 22
     = escape_newlines (slice text (3 - 140) 3)
       ++ escape_newlines (slice text 3 22)
       ++ escape_newlines (slice text 22 (22 + 140)).
Proof.
  cbv zeta. split; [lia|]. split; [lia|].
  apply (@snippet_window
           (lit "a." ++ NL ++ lit "SELECT x FROM t881." ++ NL ++ lit "b.")
           3 22); lia.
Defined.

(** From offset 0 on, line numbers start at 1, grow with the offset, by at
    most one per character, and stay the same past the end of the text. *)
Theorem line_of_offset_grows (text : str) (off d : Z) :
  (0 <= off)%Z -> (0 <= d)%Z ->
  1 <= AnyInt.line_of_offset text off
  /\ AnyInt.line_of_offset text off <= AnyInt.line_of_offset text (off + d)
  /\ AnyInt.line_of_offset text (off + d)
     <= AnyInt.line_of_offset text off + Z.to_nat d
  /\ AnyInt.line_of_offset text (Z.of_nat (length text) + d)
     = AnyInt.line_of_offset text (Z.of_nat (length text)).
Proof.
  intros H0 Hd.
  rewrite <- (Z2Nat.id off H0), <- (Z2Nat.id d Hd), <- !Nat2Z.inj_add.
  rewrite !line_of_offset_of_nat, Nat2Z.id.
  generalize (Z.to_nat off) (Z.to_nat d). clear. intros off d.
  unfold line_of_offset. rewrite !count_newlines_split.
  pose proof (count_newlines_le (skipn off text) d).
  repeat split; try lia.
  rewrite skipn_all. unfold count_newlines at 2.
  rewrite firstn_nil. simpl. lia.
Qed.

Lemma line_of_offset_grows_example :
  let text := lit "a." ++ NL ++ lit "b." ++ NL ++ lit "c." in
  (0 <= 2)%Z /\ (0 <= 3)%Z
  /\ 1 <= AnyInt.line_of_offset text 2
  /\ AnyInt.line_of_offset text 2 <= AnyInt.line_of_offset text (2 + 3)
  /\ AnyInt.line_of_offset text (2 + 3)
     <= AnyInt.line_of_offset text 2 + Z.to_nat 3
  /\ AnyInt.line_of_offset text (Z.of_nat (length text) + 3)
     = AnyInt.line_of_offset text (Z.of_nat (length text)).
Proof.
  cbv zeta. split; [lia|]. split; [lia|].
  apply (@line_of_offset_grows
           (lit "a." ++ NL ++ lit "b." ++ NL ++ lit "c.") 2 3); lia.
Defined.

(* ------------------------------------------------------------------ *)
(** ** The rules of the specification and the sanitizer *)

Lemma splitlines_physical (n : nat) :
  forall s cur,
    length s <= n ->
    standard_breaks s = true ->
    splitlines_from cur s = physical_lines_from cur s.
Proof.
  induction n as [|n IH]; intros s cur Hn Hs.
  - destruct s; [|simpl in Hn; lia].
    now rewrite splitlines_from_equation.
  - destruct s as [|c s]; [now rewrite splitlines_from_equation|].
    simpl in Hn. rewrite splitlines_from_equation.
    cbn [physical_lines_from standard_breaks] in *.
    apply andb_true_iff in Hs as [Hc Hs].
    destruct (Ascii.eqb c LF) eqn:ELF.
    + apply Ascii.eqb_eq in ELF. subst c.
      change (Ascii.eqb LF CR) with false. change (is_linebreak LF) with true.
      cbv iota. f_equal. apply IH; [lia | exact Hs].
    + destruct (Ascii.eqb c CR) eqn:ECR.
      * destruct s as [|d s]; [discriminate Hc|].
        rewrite Hc. cbn [physical_lines_from]. rewrite Hc.
        cbn [standard_breaks] in Hs. apply andb_true_iff in Hs as [_ Hs].
        f_equal. apply IH; [simpl in Hn; lia | exact Hs].
      * apply negb_true_iff in Hc. rewrite Hc.
        apply IH; [lia | exact Hs].
Qed.

Lemma sanitized_physical (x : str) :
  standard_breaks x = true ->
  sanitized x = concat (map blank_line (physical_lines x)).
Proof.
  intros H. unfold sanitized, splitlines, physical_lines.
  now rewrite (@splitlines_physical (length x) x [] (le_n _) H).
Qed.

Lemma blanked_if_all (f : ascii -> bool) (l : str) :
  Forall2 blanked_if (map f l) (repeat SPACE (length l)).
Proof.
  induction l as [|c l IH]; cbn [map length repeat]; constructor;
    [intros _; reflexivity | exact IH].
Qed.

Lemma neutral_chars_blanked (in_str : bool) (l : str) :
  Forall2 blanked_if (neutral_chars in_str l) (blank_chars in_str l).
Proof.
  functional induction (blank_chars in_str l);
    rewrite neutral_chars_equation;
    repeat match goal with
           | H : ?b = _ |- context [if ?b then _ else _] => rewrite H
           end;
    cbn [andb negb];
    try apply blanked_if_all;
    repeat (constructor; [first [discriminate | intros _; reflexivity]|]);
    try assumption; try constructor.
Qed.

Lemma neutral_line_blanked (ln : str) :
  Forall2 blanked_if (neutral_line ln) (blank_line ln).
Proof.
  unfold neutral_line, blank_line. destruct (startswith ln [STAR]).
  - apply blanked_if_all.
  - apply neutral_chars_blanked.
Qed.

Lemma Forall2_concat_map (A B C : Type) (R : B -> C -> Prop)
  (f : A -> list B) (g : A -> list C) (l : list A) :
  (forall a, Forall2 R (f a) (g a)) ->
  Forall2 R (concat (map f l)) (concat (map g l)).
Proof.
  intros H. induction l as [|a l IH]; cbn [map concat]; [constructor|].
  apply Forall2_app; auto.
Qed.

Lemma neutralized_blanked (x : str) :
  standard_breaks x = true ->
  Forall2 blanked_if (neutralized x) (sanitized x).
Proof.
  intros H. rewrite (sanitized_physical _ H). unfold neutralized.
  apply Forall2_concat_map, neutral_line_blanked.
Qed.

Lemma blanked_if_nth (ms : list bool) (cs : str) (i : nat) :
  Forall2 blanked_if ms cs ->
  nth i ms false = true -> nth_error cs i = Some SPACE.
Proof.
  intros H. revert i.
  induction H as [|m c ms cs Hm _ IH]; intros [|i] Hi; cbn in *;
    try discriminate.
  - now rewrite (Hm Hi).
  - now apply IH.
Qed.

(** When the rules neutralize every mention of a target table, the
    sanitized text mentions none. *)
Lemma neutralized_no_mention (raw : str) :
  standard_breaks raw = true ->
  mentioned_only_in_literals_or_comments raw = true ->
  no_mention (sanitized raw).
Proof.
  intros Hb Hs name o Hname.
  destruct (mention_at name (sanitized raw) o) eqn:Hm; [|reflexivity].
  exfalso.
  pose proof (Forall2_skipn o (sanitized_pointwise raw)) as Hk.
  unfold mention_at in Hm.
  destruct (@mention_kept _ (targets_no_space Hname) _ _ Hk Hm) as [Hr _].
  assert (o < length raw) as Ho.
  { pose proof (startswith_nonempty (targets_nonempty Hname) Hr) as Hne.
    destruct (Nat.lt_ge_cases o (length raw)) as [Hlt|Hge]; [exact Hlt|].
    exfalso. apply Hne. unfold lower. rewrite skipn_all2; [reflexivity|lia]. }
  unfold mentioned_only_in_literals_or_comments in Hs.
  rewrite forallb_forall in Hs.
  specialize (Hs o). rewrite in_seq in Hs. specialize (Hs ltac:(lia)).
  rewrite forallb_forall in Hs. specialize (Hs name Hname).
  unfold mention_at in Hs. rewrite Hr in Hs. cbn [implb] in Hs.
  rewrite forallb_forall in Hs.
  assert (0 < length name) as Hlen.
  { pose proof (targets_nonempty Hname). destruct name; [congruence|].
    simpl; lia. }
  specialize (Hs o). rewrite in_seq in Hs. specialize (Hs ltac:(lia)).
  apply (@blanked_if_nth _ _ o (@neutralized_blanked raw Hb)) in Hs.
  apply nth_error_skipn_head in Hs as [tl Htl].
  rewrite Htl in Hm. destruct name as [|c name]; [simpl in Hlen; lia|].
  cbn [lower map startswith] in Hm. apply andb_true_iff in Hm as [Hc _].
  rewrite lower_char_space in Hc. apply Ascii.eqb_eq in Hc.
  apply (targets_no_space Hname). left. now symmetry.
Qed.

(** When the line boundaries of the code are newlines, alone or after a
    carriage return, and every mention of a target table lies in a
    full-line comment, after an inline-comment marker or inside a string
    literal, as the rules of the specification delimit them,
    [scan_unit] returns no finding. *)
Theorem neutralized_mentions_yield_no_finding (u : Unit.t) :
  standard_breaks (code_or_empty u) = true ->
  mentioned_only_in_literals_or_comments (code_or_empty u) = true ->
  scan_unit u = Ok (mkResult u []).
Proof.
  intros Hb Hs.
  pose proof (hits_none (neutralized_no_mention _ Hb Hs)) as H.
  destruct (scan_unit_closed u) as [fs [E Hfs]].
  rewrite H in Hfs. inversion Hfs; subst. exact E.
Qed.

Lemma neutralized_mentions_examples :
  let meta := Unit.mk (lit "ZPROG") (lit "ZINC") (lit "PROG") (Some (lit "MAIN"))
                (Some 1%Z) (Some 9%Z) None in
  let u1 := unit_with meta (Some (lit "* SELECT * FROM t881.")) in
  let u2 := unit_with meta (Some (lit "... VALUE 'SELECT FROM T881'.")) in
  let u3 := unit_with meta
              (Some (lit "x = 1. " ++ [DQUOTE] ++ lit " SELECT * FROM t881.")) in
  let u4 := unit_with meta
              (Some (lit "DATA x." ++ [CR; LF]
                     ++ lit "* SELECT * FROM t881." ++ [CR; LF]
                     ++ lit "y = 'FROM t882g'. z = 2." ++ [LF]
                     ++ lit "SELECT * FROM mara.")) in
  (standard_breaks (code_or_empty u1) = true
   /\ mentioned_only_in_literals_or_comments (code_or_empty u1) = true
   /\ scan_unit u1 = Ok (mkResult u1 []))
  /\ (standard_breaks (code_or_empty u2) = true
      /\ mentioned_only_in_literals_or_comments (code_or_empty u2) = true
      /\ scan_unit u2 = Ok (mkResult u2 []))
  /\ (standard_breaks (code_or_empty u3) = true
      /\ mentioned_only_in_literals_or_comments (code_or_empty u3) = true
      /\ scan_unit u3 = Ok (mkResult u3 []))
  /\ (standard_breaks (code_or_empty u4) = true
      /\ mentioned_only_in_literals_or_comments (code_or_empty u4) = true
      /\ scan_unit u4 = Ok (mkResult u4 [])).
Proof.
  cbv zeta.
  split; [|split; [|split]];
    (split; [vm_compute; reflexivity|];
     split; [vm_compute; reflexivity|];
     apply neutralized_mentions_yield_no_finding; vm_compute; reflexivity).
Defined.
